(** * The exponential ziggurat sampler of gozelle/rand

    Shallow embedding of [math_exp.go] (the sampler [ExpFloat64] and its
    three 256-entry tables), of the table generator [initExp] and the slice
    comparisons of [std_rand_test.go], and of the byte-stream,
    bounded-sampler and shuffle operations that the test files drive.

    Numbers are modelled as the code has them: a [uint64] is a [Z] in
    [0, 2^64), and a [float64] of the sampler and of its tables is a
    primitive binary64 [float], whose operations round to nearest-even one
    at a time, as the Go statements do when no operations are fused.  The
    table generator calls [math.Exp] and [math.Log] at every step; it is
    modelled in exact real arithmetic. *)

From Bignums Require Import BigZ.
From Stdlib Require Import ZArith List Lia Bool Floats Uint63 PeanoNat.
From Stdlib Require Import Reals Lra.
Import ListNotations.
Set Warnings "-inexact-float".
Local Open Scope Z_scope.

(** ** Tables of [math_exp.go] *)

Definition ke : list Z :=
  [ 0x1c5214272497c5; 0x0; 0x137d5bd79c3125; 0x186ef58e3f3bf1;
    0x1a9bb7320eb09b; 0x1bd127f7194472; 0x1c951d0f886513; 0x1d1bfe2d5c3970;
    0x1d7e5bd56b18b2; 0x1dc934dd172c6e; 0x1e0409dfac9dc8; 0x1e337b71d47835;
    0x1e5a8b177cb7a0; 0x1e7b42096f046d; 0x1e970daf08ae3c; 0x1eaef5b14ef09e;
    0x1ec3bd07b46557; 0x1ed5f6f08799cd; 0x1ee614ae6e5689; 0x1ef46eca361ccf;
    0x1f014b76ddd4a3; 0x1f0ce313a796b6; 0x1f176369f1f779; 0x1f20f20c452571;
    0x1f29ae1951a875; 0x1f31b18fb95533; 0x1f39125157c107; 0x1f3fe2eb6e694c;
    0x1f463332d788fb; 0x1f4c10bf1d3a11; 0x1f51874c5c3323; 0x1f56a109c3ecc1;
    0x1f5b66d9099995; 0x1f5fe08210d08c; 0x1f6414dd445772; 0x1f6809f685967a;
    0x1f6bc52a2b02e7; 0x1f6f4b3d32e4f4; 0x1f72a07190f139; 0x1f75c8974d09d9;
    0x1f78c71b045cc0; 0x1f7b9f12413ff5; 0x1f7e5346079f8a; 0x1f80e63be21138;
    0x1f835a3dad9163; 0x1f85b16056b913; 0x1f87ed89b24263; 0x1f8a10759374fc;
    0x1f8c1bba3d39ad; 0x1f8e10cc45d04b; 0x1f8ff102013e16; 0x1f91bd968358e2;
    0x1f9377ac47afd7; 0x1f95204f8b64db; 0x1f96b878633894; 0x1f98410c968891;
    0x1f99bae146ba83; 0x1f9b26bc697f01; 0x1f9c85561b717a; 0x1f9dd759cfd804;
    0x1f9f1d6761a1cf; 0x1fa058140936c0; 0x1fa187eb3a333a; 0x1fa2ad6f6bc4fc;
    0x1fa3c91ace0683; 0x1fa4db5fee6aa3; 0x1fa5e4aa4d0980; 0x1fa6e55ee46783;
    0x1fa7dddca51ec5; 0x1fa8ce7ce6a876; 0x1fa9b793ce5fef; 0x1faa9970adb858;
    0x1fab745e588233; 0x1fac48a3740585; 0x1fad1682bf9feb; 0x1fadde3b5782c0;
    0x1faea008f21d6c; 0x1faf5c2418b07f; 0x1fb012c25b7a15; 0x1fb0c41681dff3;
    0x1fb17050b6f1fa; 0x1fb2179eb2963b; 0x1fb2ba2bdfa84b; 0x1fb358217f4e19;
    0x1fb3f1a6c9be0d; 0x1fb486e10cacd7; 0x1fb517f3c793fc; 0x1fb5a500c5fdaa;
    0x1fb62e2837fe5a; 0x1fb6b388c9010b; 0x1fb7353fb50798; 0x1fb7b368dc7da9;
    0x1fb82e1ed6ba0a; 0x1fb8a57b0347f6; 0x1fb919959a0f74; 0x1fb98a85ba7204;
    0x1fb9f861796f26; 0x1fba633deee287; 0x1fbacb2f41ec17; 0x1fbb3048b49146;
    0x1fbb929caea4e4; 0x1fbbf23cc8029d; 0x1fbc4f39d22996; 0x1fbca9a3e140d5;
    0x1fbd018a548fa0; 0x1fbd56fbde729c; 0x1fbdaa068bd66c; 0x1fbdfab7cb3f42;
    0x1fbe491c7364de; 0x1fbe9540c96960; 0x1fbedf3086b129; 0x1fbf26f6de6176;
    0x1fbf6c9e828ae4; 0x1fbfb031a904c6; 0x1fbff1ba0ffdb1; 0x1fc03141024589;
    0x1fc06ecf5b54b3; 0x1fc0aa6d8b1428; 0x1fc0e42399698b; 0x1fc11bf9298a65;
    0x1fc151f57d1944; 0x1fc1861f770f4b; 0x1fc1b87d9e74b4; 0x1fc1e91620ea43;
    0x1fc217eed505de; 0x1fc2450d3c8400; 0x1fc27076864fc2; 0x1fc29a2f906310;
    0x1fc2c23ce98045; 0x1fc2e8a2d2c6b5; 0x1fc30d654122ef; 0x1fc33087de9c0f;
    0x1fc3520e0b7ec9; 0x1fc371fadf66f8; 0x1fc390512a2887; 0x1fc3ad137497fa;
    0x1fc3c844013349; 0x1fc3e1e4ccab40; 0x1fc3f9f78e4da8; 0x1fc4107db85061;
    0x1fc4257877fd69; 0x1fc438e8b5bfc7; 0x1fc44acf15112a; 0x1fc45b2bf447e9;
    0x1fc469ff6c4505; 0x1fc477495001b3; 0x1fc483092bfbba; 0x1fc48d3e457ff7;
    0x1fc495e799d21b; 0x1fc49d03dd30b2; 0x1fc4a29179b434; 0x1fc4a68e8e07fc;
    0x1fc4a8f8ebfb8d; 0x1fc4a9ce16eaa0; 0x1fc4a90b41fa35; 0x1fc4a6ad4e28a1;
    0x1fc4a2b0c82e76; 0x1fc49d11e62de3; 0x1fc495cc852df4; 0x1fc48cdc265ec1;
    0x1fc4823bec237a; 0x1fc475e696dee7; 0x1fc467d6817e83; 0x1fc458059dc038;
    0x1fc4466d702e22; 0x1fc433070bcb9a; 0x1fc41dcb0d6e0e; 0x1fc406b196bbf7;
    0x1fc3edb248cb62; 0x1fc3d2c43e593d; 0x1fc3b5de0591b5; 0x1fc396f599614b;
    0x1fc376005a4592; 0x1fc352f3069372; 0x1fc32dc1b2281b; 0x1fc3065fbd7888;
    0x1fc2dcbfcbf264; 0x1fc2b0d3b99f9e; 0x1fc2828c8ffcf0; 0x1fc251da79f164;
    0x1fc21eacb6d39e; 0x1fc1e8f18c6757; 0x1fc1b09637bb3d; 0x1fc17586dccd11;
    0x1fc137ae74d6b8; 0x1fc0f6f6bb2416; 0x1fc0b348184da4; 0x1fc06c898baff1;
    0x1fc022a092f365; 0x1fbfd5710f72b8; 0x1fbf84dd294890; 0x1fbf30c52fc60d;
    0x1fbed907770cc6; 0x1fbe7d80327ddc; 0x1fbe1e094ba615; 0x1fbdba7a354408;
    0x1fbd52a7b9f826; 0x1fbce663c6201b; 0x1fbc757d2c4de5; 0x1fbbffbf63b7aa;
    0x1fbb84f23fe6a2; 0x1fbb04d9a0d18e; 0x1fba7f351a70ad; 0x1fb9f3bf92b61a;
    0x1fb9622ed4abfc; 0x1fb8ca33174a18; 0x1fb82b76765b54; 0x1fb7859c5b895d;
    0x1fb6d840d55594; 0x1fb622f7d96943; 0x1fb5654c6f37e2; 0x1fb49ebfbf69d3;
    0x1fb3cec803e747; 0x1fb2f4cf539c40; 0x1fb21032442854; 0x1fb1203e5a9605;
    0x1fb0243042e1c3; 0x1faf1b31c479a7; 0x1fae045767e106; 0x1facde9dbf2d73;
    0x1faba8e640060b; 0x1faa61f399ff29; 0x1fa908656f66a2; 0x1fa79ab3508d3d;
    0x1fa61726d1f215; 0x1fa47bd48bea00; 0x1fa2c693c5c095; 0x1fa0f4f47df316;
    0x1f9f04336bbe0b; 0x1f9cf12b79f9bd; 0x1f9ab84415abc5; 0x1f98555b782fb9;
    0x1f95c3abd03f7a; 0x1f92fda9cef1f3; 0x1f8ffcda9ae41d; 0x1f8cb99e7385f8;
    0x1f892aec479608; 0x1f8545f904db90; 0x1f80fdc336039b; 0x1f7c427839e926;
    0x1f7700a3582ace; 0x1f71200f1a241d; 0x1f6a8234b7352c; 0x1f630000a8e267;
    0x1f5a66904fe3c6; 0x1f50724ece1173; 0x1f44c7665c6fdb; 0x1f36e5a38a59a4;
    0x1f26143450340b; 0x1f113e047b0414; 0x1ef6aefa57cbe7; 0x1ed38ca188151e;
    0x1ea2a61e122db1; 0x1e5961c78b267d; 0x1dddf62bac0bb1; 0x1cdb4dd9e4e8c0 ]%Z.

Definition we : list float :=
  [ 9.655740063209187e-16; 7.089014243955202e-18; 1.1639412496691068e-17;
    1.5243915123532025e-17; 1.8332848857237325e-17; 2.108965109464476e-17;
    2.361128077843129e-17; 2.595595772310885e-17; 2.816173554197743e-17;
    3.025504130321374e-17; 3.2255082548363667e-17; 3.417632340185019e-17;
    3.602996978734446e-17; 3.7824907768696417e-17; 3.9568321980975465e-17;
    4.1266117781759396e-17; 4.292321808442518e-17; 4.4543777432823646e-17;
    4.613133981483179e-17; 4.768895725264629e-17; 4.9219280437279567e-17;
    5.072462904503141e-17; 5.220704702792667e-17; 5.366834661718187e-17;
    5.511014372835089e-17; 5.653388673239661e-17; 5.79408800485276e-17;
    5.933230365208937e-17; 6.070922932847173e-17; 6.207263431163186e-17;
    6.342341280303069e-17; 6.476238575956133e-17; 6.609030925769398e-17;
    6.740788167872715e-17; 6.871574991183805e-17; 7.001451473403922e-17;
    7.130473549660636e-17; 7.258693422414641e-17; 7.386159921381785e-17;
    7.51291882072372e-17; 7.639013119550817e-17; 7.764483290797841e-17;
    7.889367502729783e-17; 8.013701816675448e-17; 8.137520364041755e-17;
    8.260855505210031e-17; 8.383737972539132e-17; 8.506196999385315e-17;
    8.628260436784104e-17; 8.749954859216174e-17; 8.871305660690245e-17;
    8.992337142215348e-17; 9.113072591597902e-17; 9.233534356381781e-17;
    9.35374391064912e-17; 9.473721916312942e-17; 9.593488279457989e-17;
    9.713062202221511e-17; 9.832462230649502e-17; 9.951706298915062e-17;
    1.007081177024294e-16; 1.0189795474846932e-16; 1.0308673745154211e-16;
    1.0427462448561878e-16; 1.0546177017945757e-16; 1.0664832480119141e-16;
    1.0783443482419476e-16; 1.0902024317583496e-16; 1.1020588947055772e-16;
    1.1139151022861965e-16; 1.1257723908165665e-16; 1.1376320696616837e-16;
    1.1494954230590083e-16; 1.1613637118402173e-16; 1.1732381750590448e-16;
    1.1851200315326687e-16; 1.1970104813034644e-16; 1.2089107070273848e-16;
    1.2208218752947052e-16; 1.2327451378884145e-16; 1.244681632985112e-16;
    1.256632486302898e-16; 1.2685988122003973e-16; 1.2805817147307491e-16;
    1.292582288654119e-16; 1.3046016204120286e-16; 1.3166407890665723e-16;
    1.328700867207381e-16; 1.3407829218289992e-16; 1.3528880151811752e-16;
    1.3650172055943978e-16; 1.377171548282881e-16; 1.3893520961270637e-16;
    1.4015599004375713e-16; 1.413796011702485e-16; 1.4260614803196652e-16;
    1.4383573573157902e-16; 1.4506846950536877e-16; 1.4630445479294757e-16;
    1.4754379730609514e-16; 1.4878660309686256e-16; 1.5003297862507367e-16;
    1.5128303082535392e-16; 1.5253686717381255e-16; 1.5379459575449967e-16;
    1.5505632532575771e-16; 1.5632216538658375e-16; 1.5759222624311761e-16;
    1.5886661907536842e-16; 1.6014545600429167e-16; 1.6142885015932787e-16;
    1.6271691574651303e-16; 1.6400976811727177e-16; 1.6530752383800364e-16;
    1.6661030076057416e-16; 1.6791821809382284e-16; 1.692313964762022e-16;
    1.7054995804966296e-16; 1.7187402653490314e-16; 1.732037273081008e-16;
    1.7453918747925335e-16; 1.758805359722491e-16; 1.772279036068006e-16;
    1.7858142318237321e-16; 1.7994122956424635e-16; 1.8130745977185013e-16;
    1.826802530695252e-16; 1.8405975105985876e-16; 1.8544609777975695e-16;
    1.8683943979941927e-16; 1.8823992632438918e-16; 1.8964770930086165e-16;
    1.910629435244376e-16; 1.9248578675252436e-16; 1.9391639982058992e-16;
    1.953549467624909e-16; 1.9680159493510374e-16; 1.982565151475019e-16;
    1.997198817949342e-16; 2.0119187299787347e-16; 2.0267267074641983e-16;
    2.0416246105035888e-16; 2.0566143409519179e-16; 2.071697844044737e-16;
    2.0868771100881597e-16; 2.1021541762192925e-16; 2.1175311282410757e-16;
    2.1330101025357788e-16; 2.148593288061663e-16; 2.1642829284376045e-16;
    2.1800813241207835e-16; 2.1959908346828702e-16; 2.2120138811904954e-16;
    2.22815294869618e-16; 2.2444105888463076e-16; 2.2607894226131728e-16;
    2.27729214315862e-16; 2.2939215188373104e-16; 2.310680396348213e-16;
    2.327571704043534e-16; 2.3445984554049574e-16; 2.3617637526977735e-16;
    2.379070790814276e-16; 2.396522861318623e-16; 2.4141233567062923e-16;
    2.431875774892255e-16; 2.4497837239430697e-16; 2.467850927069288e-16;
    2.486081227895851e-16; 2.504478596029556e-16; 2.523047132944216e-16;
    2.5417910782058117e-16; 2.560714816061771e-16; 2.579822882420531e-16;
    2.5991199722497464e-16; 2.618610947423924e-16; 2.6383008450549423e-16;
    2.658194886341845e-16; 2.6782984859795257e-16; 2.6986172621694894e-16;
    2.719157047279819e-16; 2.7399238992058153e-16; 2.760924113487617e-16;
    2.782164236246436e-16; 2.8036510780069835e-16; 2.825391728480253e-16;
    2.847393572388174e-16; 2.8696643064198177e-16; 2.8922119574179956e-16;
    2.9150449019052937e-16; 2.9381718870700286e-16; 2.9616020533454657e-16;
    2.9853449587300453e-16; 3.009410605012618e-16; 3.033809466085003e-16;
    3.0585525185448604e-16; 3.08365127481531e-16; 3.1091178190342663e-16;
    3.1349648459966636e-16; 3.161205703467106e-16; 3.1878544382197136e-16;
    3.214925846206798e-16; 3.242435527309452e-16; 3.270399945182241e-16;
    3.2988364927722836e-16; 3.327763564171672e-16; 3.3572006335532446e-16;
    3.387168342045505e-16; 3.417688593525637e-16; 3.4487846604534244e-16;
    3.4804813010374423e-16; 3.5128048892229794e-16; 3.545783559224792e-16;
    3.5794473666042765e-16; 3.6138284682190606e-16; 3.6489613237645425e-16;
    3.684882922095621e-16; 3.7216330360802073e-16; 3.759254510416256e-16;
    3.7977935876688744e-16; 3.8373002787892137e-16; 3.8778287856078953e-16;
    3.919437984311429e-16; 3.962191980786775e-16; 4.0061607510565417e-16;
    4.051420882956573e-16; 4.0980564389030625e-16; 4.1461599642909046e-16;
    4.195833672073399e-16; 4.247190841824385e-16; 4.3003574816674707e-16;
    4.355474314693952e-16; 4.4126991690360704e-16; 4.472209874259932e-16;
    4.534207798565834e-16; 4.598922204905932e-16; 4.666615664711476e-16;
    4.737590853262492e-16; 4.812199172829238e-16; 4.89085182739221e-16;
    4.97403423619194e-16; 5.06232507214416e-16; 5.156421828878083e-16;
    5.257175802022275e-16; 5.365640977112021e-16; 5.483144034258703e-16;
    5.611387454675159e-16; 5.752606481503331e-16; 5.909817641652101e-16;
    6.087231416180907e-16; 6.290979034877556e-16; 6.53049205356404e-16;
    6.821393079028929e-16; 7.192444966089362e-16; 7.706095350032097e-16;
    8.545517038584027e-16 ]%float.

Definition fe : list float :=
  [ 1; 0.9381436808621765; 0.9004699299257477;
    0.8717043323812047; 0.8477855006239905; 0.8269932966430511;
    0.808421651523009; 0.7915276369724963; 0.7759568520401162;
    0.7614633888498968; 0.7478686219851957; 0.735038092431424;
    0.7228676595935725; 0.7112747608050765; 0.7001926550827886;
    0.6895664961170784; 0.6793505722647658; 0.6695063167319252;
    0.6600008410790001; 0.6508058334145714; 0.6418967164272664;
    0.6332519942143664; 0.6248527387036662; 0.6166821809152079;
    0.6087253820796223; 0.6009689663652326; 0.5934009016917338;
    0.5860103184772684; 0.5787873586028454; 0.5717230486648262;
    0.5648091929124006; 0.5580382822625879; 0.5514034165406417;
    0.5448982376724401; 0.5385168720028622; 0.5322538802630437;
    0.5261042139836201; 0.5200631773682339; 0.5141263938147489;
    0.5082897764106432; 0.5025495018413481; 0.4969019872415499;
    0.49134386959403287; 0.48587198734188525; 0.48048336393045454;
    0.4751751930373777; 0.4699448252839603; 0.4647897562504265;
    0.459707615642138; 0.45469615747461584; 0.44975325116275533;
    0.44487687341454885; 0.4400651008423542; 0.4353161032156369;
    0.43062813728845917; 0.4259995411430347; 0.4214287289976169;
    0.41691418643300326; 0.4124544659971615; 0.40804818315203273;
    0.4036940125305306; 0.3993906844752314; 0.39513698183329043;
    0.3909317369847974; 0.38677382908413793; 0.38266218149601006;
    0.37859575940958107; 0.37457356761590244; 0.3705946484351463;
    0.36665807978151443; 0.3627629733548181; 0.35890847294875006;
    0.35509375286678774; 0.3513180164374836; 0.34758049462163726;
    0.3438804447045027; 0.34021714906678024; 0.3365899140286778;
    0.3329980687618092; 0.32944096426413655; 0.32591797239355635;
    0.3224284849560893; 0.31897191284495735; 0.315547685227129;
    0.3121552487741797; 0.30879406693456024; 0.3054636192445903;
    0.3021634006756935; 0.2988929210155818; 0.29565170428126125;
    0.29243928816189263; 0.28925522348967775; 0.2860990737370769;
    0.2829704145387808; 0.2798688332369729; 0.2767939284485174;
    0.27374530965280297; 0.27072259679906; 0.26772541993204485;
    0.26475341883506226; 0.26180624268936303; 0.2588835497490163;
    0.25598500703041543; 0.2531102900156295; 0.25025908236886235;
    0.24743107566532765; 0.24462596913189213; 0.24184346939887724;
    0.23908329026244915; 0.23634515245705962; 0.23362878343743335;
    0.23093391716962744; 0.22826029393071676; 0.22560766011668415;
    0.22297576805812028; 0.22036437584335958; 0.21777324714870058;
    0.2152021510753787; 0.21265086199297834; 0.2101191593889883;
    0.20760682772422212; 0.20511365629383782; 0.2026394390937091;
    0.20018397469191135; 0.19774706610509893; 0.19532852067956327;
    0.19292814997677138; 0.19054576966319545; 0.18818119940425432;
    0.18583426276219714; 0.1835047870977675; 0.18119260347549634;
    0.17889754657247836; 0.17661945459049494; 0.17435816917135352;
    0.1721135353153201; 0.16988540130252766; 0.1676736186172502;
    0.165478041874936; 0.16329852875190182; 0.16113493991759203;
    0.1589871389693142; 0.15685499236936523; 0.15473836938446808;
    0.15263714202744288; 0.15055118500103992; 0.14848037564386682;
    0.14642459387834497; 0.1443837221606348; 0.14235764543247223;
    0.1403462510748625; 0.1383494288635803; 0.13636707092642894;
    0.1343990717022137; 0.13244532790138763; 0.13050573846833088;
    0.1285802045452283; 0.12666862943751078; 0.12477091858083104;
    0.12288697950954522; 0.1210167218266749; 0.11916005717532775;
    0.11731689921155564; 0.1154871635786336; 0.11367076788274438;
    0.11186763167005638; 0.11007767640518545; 0.10830082545103385;
    0.10653700405000172; 0.10478613930657024; 0.1030481601712578;
    0.10132299742595369; 0.09961058367063715; 0.09791085331149221;
    0.09622374255043283; 0.09454918937605587; 0.09288713355604357;
    0.09123751663104017; 0.08960028191003284; 0.08797537446727019;
    0.08636274114075689; 0.0847623305323681; 0.08317409300963235;
    0.08159798070923742; 0.0800339475423199; 0.07848194920160644;
    0.07694194317048052; 0.0754138887340584; 0.07389774699236475;
    0.07239348087570872; 0.07090105516237181; 0.06942043649872875;
    0.06795159342193662; 0.06649449638533979; 0.06504911778675376;
    0.06361543199980735; 0.06219341540854101; 0.06078304644547963;
    0.05938430563342025; 0.05799717563120064; 0.05662164128374284;
    0.05525768967669701; 0.05390531019604605; 0.052564494593071664;
    0.051235237055126254; 0.04991753428270636; 0.04861138557337948;
    0.04731679291318155; 0.04603376107617516; 0.04476229773294327;
    0.043502413568888176; 0.04225412241331624; 0.04101744138041482;
    0.03979239102337412; 0.03857899550307485; 0.03737728277295936;
    0.03618728478193143; 0.03500903769739742; 0.033842582150874344;
    0.03268796350895954; 0.03154523217289361; 0.030414443910466608;
    0.029295660224637397; 0.028188948763978632; 0.0270943837809558;
    0.02601204664513422; 0.024942026419731787; 0.023884420511558174;
    0.02283933540638524; 0.021806887504283584; 0.020787204072578117;
    0.01978042433800974; 0.018786700744696024; 0.017806200410911355;
    0.01683910682603994; 0.015885621839973156; 0.014945968011691148;
    0.014020391403181943; 0.013109164931254991; 0.012212592426255378;
    0.0113310135978346; 0.010464810181029982; 0.009614413642502213;
    0.008780314985808977; 0.007963077438017043; 0.007163353183634991;
    0.006381905937319183; 0.005619642207205489; 0.0048776559835424;
    0.0041572951208338005; 0.003460264777836907; 0.0027887987935740783;
    0.002145967743718907; 0.0015362997803015728; 0.0009672692823271743;
    0.0004541343538414966 ]%float.

(** The tail constant [re]. *)
Definition re : float := 7.69711747013104972%float.

(** Array indexing [ke[i]], [we[i]], [fe[i]] for an index already known to
    be below 256 (the index is [v & 0xFF]). *)
Definition ke_at (i : Z) : Z := nth (Z.to_nat i) ke 0.
Definition we_at (i : Z) : float := nth (Z.to_nat i) we 0%float.
Definition fe_at (i : Z) : float := nth (Z.to_nat i) fe 0%float.

(** [float64(j)] for a [uint64] [j]: every [j] the sampler converts is
    below [2^53], so the conversion is exact. *)
Definition float64_of_uint64 (j : Z) : float :=
  PrimFloat.of_uint63 (Uint63.of_Z j).

(** [math.MaxFloat64]. *)
Definition MaxFloat64 : float := 0x1.fffffffffffffp+1023%float.

(** The two halves of a raw word: [j := v >> 11] and [i := v & 0xFF]. *)
Definition magnitude (v : Z) : Z := Z.shiftr v 11.
Definition layer_index (v : Z) : Z := Z.land v 0xFF.

(** ** The sampler, over an arbitrary engine

    [Rand] and its methods [Uint64] and [Float64] live in files that are not
    part of the sources at hand, and [math.Log] and [math.Exp] belong to the
    Go standard library: the sampler is parameterised by them. *)

Inductive outcome : Type :=
| Return (x : float)
| Restart.

Section Sampler.

Variable Rand : Type.
Variable Uint64 : Rand -> Z * Rand.
Variable Float64 : Rand -> float * Rand.
Variable Log : float -> float.
Variable Exp : float -> float.

(** One pass through the body of the [for] loop of [ExpFloat64]. *)
Definition ExpFloat64_body (r : Rand) : outcome * Rand :=
  let '(v, r1) := Uint64 r in
  let j := magnitude v in
  let i := layer_index v in
  let x := (float64_of_uint64 j * we_at i)%float in
  if j <? ke_at i then (Return x, r1)
  else if i =? 0 then
    let '(u, r2) := Float64 r1 in
    (Return (re - Log u)%float, r2)
  else
    let '(u, r2) := Float64 r1 in
    if (fe_at i + u * (fe_at (i - 1) - fe_at i) <? Exp (- x))%float
    then (Return x, r2)
    else (Restart, r2).

(** The loop itself; [fuel] bounds the number of passes. *)
Fixpoint ExpFloat64 (fuel : nat) (r : Rand) : option (float * Rand) :=
  match fuel with
  | O => None
  | S fuel' =>
      match ExpFloat64_body r with
      | (Return x, r') => Some (x, r')
      | (Restart, r') => ExpFloat64 fuel' r'
      end
  end.

End Sampler.

Arguments ExpFloat64_body {Rand} Uint64 Float64 Log Exp r.
Arguments ExpFloat64 {Rand} Uint64 Float64 Log Exp fuel r.

(** ** The ziggurat state machine, as the specification words it

    One draw: a raw word gives the layer [i] and the magnitude [j]; the
    candidate is [x = j * we[i]]; [j < ke[i]] accepts at once; layer 0 falls
    back to the tail [re - ln u]; any other layer accepts [x] when
    [fe[i] + u * (fe[i-1] - fe[i]) < exp (-x)] and restarts otherwise. *)

Section StateMachine.

Variable Rand : Type.
Variable Uint64 : Rand -> Z * Rand.
Variable Float64 : Rand -> float * Rand.
Variable Log : float -> float.
Variable Exp : float -> float.

Definition candidate (v : Z) : float :=
  (float64_of_uint64 (magnitude v) * we_at (layer_index v))%float.

Definition wedge_test (v : Z) (u : float) : bool :=
  let i := layer_index v in
  (fe_at i + u * (fe_at (i - 1) - fe_at i) <? Exp (- candidate v))%float.

Inductive zig_step (r : Rand) : outcome -> Rand -> Prop :=
| zig_fast v r1 :
    Uint64 r = (v, r1) ->
    magnitude v < ke_at (layer_index v) ->
    zig_step r (Return (candidate v)) r1
| zig_tail v r1 u r2 :
    Uint64 r = (v, r1) ->
    ~ magnitude v < ke_at (layer_index v) ->
    layer_index v = 0 ->
    Float64 r1 = (u, r2) ->
    zig_step r (Return (re - Log u)%float) r2
| zig_accept v r1 u r2 :
    Uint64 r = (v, r1) ->
    ~ magnitude v < ke_at (layer_index v) ->
    layer_index v <> 0 ->
    Float64 r1 = (u, r2) ->
    wedge_test v u = true ->
    zig_step r (Return (candidate v)) r2
| zig_reject v r1 u r2 :
    Uint64 r = (v, r1) ->
    ~ magnitude v < ke_at (layer_index v) ->
    layer_index v <> 0 ->
    Float64 r1 = (u, r2) ->
    wedge_test v u = false ->
    zig_step r Restart r2.

(** A whole call: restarts until a step returns. *)
Inductive zig_run (r : Rand) : float -> Rand -> Prop :=
| run_return x r' :
    zig_step r (Return x) r' -> zig_run r x r'
| run_restart r1 x r' :
    zig_step r Restart r1 -> zig_run r1 x r' -> zig_run r x r'.

End StateMachine.

Arguments candidate v : simpl never.
Arguments zig_step {Rand} Uint64 Float64 Log Exp r _ _.
Arguments zig_run {Rand} Uint64 Float64 Log Exp r _ _.

(** ** Engines

    Two instances of the engine interface: one that records every call made
    to an underlying engine, and one that replays a prescribed sequence of
    raw words. *)

Inductive event : Type :=
| EvUint64 (v : Z)
| EvFloat64 (u : float).

Section Traced.

Variable Rand : Type.
Variable Uint64 : Rand -> Z * Rand.
Variable Float64 : Rand -> float * Rand.

Definition traced_Uint64 (s : Rand * list event) : Z * (Rand * list event) :=
  let '(v, r') := Uint64 (fst s) in (v, (r', snd s ++ [EvUint64 v])).

Definition traced_Float64 (s : Rand * list event)
  : float * (Rand * list event) :=
  let '(u, r') := Float64 (fst s) in (u, (r', snd s ++ [EvFloat64 u])).

End Traced.

Arguments traced_Uint64 {Rand} Uint64 s.
Arguments traced_Float64 {Rand} Float64 s.

(** A generator that hands out the words of a given sequence in order. *)
Record Tape : Type := mkTape { words : nat -> Z; pos : nat }.

Definition tape_Uint64 (t : Tape) : Z * Tape :=
  (words t (pos t) mod 2 ^ 64, mkTape (words t) (S (pos t))).

(** Modelled from the spec: [Float64], absent from the sources at hand;
    section 4.4 builds it from one raw word by keeping the 53 high-order
    bits and scaling by [2^-53]. *)
Definition tape_Float64 (t : Tape) : float * Tape :=
  let '(v, t') := tape_Uint64 t in
  ((float64_of_uint64 (Z.shiftr v 11) * 0x1p-53)%float, t').

(** Membership in the documented range [(0, +math.MaxFloat64]]. *)
Definition in_documented_range (x : float) : bool :=
  ((0 <? x) && (x <=? MaxFloat64))%float.

(** The reading of the word split in which [i] is the low byte and [j] is
    everything above it. *)
Definition splits_at_bit_8 (v : Z) : Prop :=
  layer_index v = v mod 2 ^ 8 /\ magnitude v = v / 2 ^ 8.

(** The check made on two neighbouring entries of [fe]: the later one is
    smaller, and their difference, as the rejection test computes it, is
    positive. *)
Definition fe_step_ok (i : nat) : bool :=
  ((nth (S i) fe 0 <? nth i fe 0) && (0 <? nth i fe 0 - nth (S i) fe 0))%float.

(** ** The byte stream

    [Read] itself is not among the sources at hand; only its test
    [TestReadByOneByte] is. *)

Section ByteStream.

Variable Engine : Type.
Variable next_u64 : Engine -> Z * Engine.
Variable seed_state : Z -> Engine.

(** A generator: the engine state and the leftover byte buffer. *)
Record Reader : Type := mkReader { engine : Engine; leftover : list Z }.

(** The [n] low bytes of a word, least significant first. *)
Fixpoint le_bytes (n : nat) (w : Z) : list Z :=
  match n with
  | O => []
  | S n' => w mod 256 :: le_bytes n' (w / 256)
  end.

Definition word_bytes (w : Z) : list Z := le_bytes 8 w.

(** The bytes of [k] freshly drawn words. *)
Fixpoint draw_words (k : nat) (e : Engine) : list Z * Engine :=
  match k with
  | O => ([], e)
  | S k' =>
      let '(w, e1) := next_u64 e in
      let '(bs, e2) := draw_words k' e1 in
      (word_bytes w ++ bs, e2)
  end.

(** Modelled from the spec: [Read] (section 4.7), which fills a buffer of
    length [n] by draining the leftover buffer first, then drawing whole raw
    words and storing their bytes in stream order (least significant byte
    first), keeping the unused tail bytes of the last drawn word as the new
    leftover buffer.  The result is the filled buffer and the generator
    after the call. *)
Definition Read (n : nat) (r : Reader) : list Z * Reader :=
  let k := length (leftover r) in
  if (n <=? k)%nat then
    (firstn n (leftover r), mkReader (engine r) (skipn n (leftover r)))
  else
    let m := (n - k)%nat in
    let '(body, e1) := draw_words (m / 8) (engine r) in
    match (m mod 8)%nat with
    | O => (leftover r ++ body, mkReader e1 [])
    | S _ =>
        let '(w, e2) := next_u64 e1 in
        (leftover r ++ body ++ firstn (m mod 8) (word_bytes w),
         mkReader e2 (skipn (m mod 8) (word_bytes w)))
    end.

(** [N] calls with a buffer of length 1, as [iotest.OneByteReader] under
    [io.ReadFull] makes them; the bytes are collected in order. *)
Fixpoint read_by_one_byte (N : nat) (r : Reader) : list Z * Reader :=
  match N with
  | O => ([], r)
  | S N' =>
      let '(b, r1) := Read 1 r in
      let '(bs, r2) := read_by_one_byte N' r1 in
      (b ++ bs, r2)
  end.

(** Modelled from the spec: [new(seed)] (sections 3 and 6), a freshly seeded
    generator, whose leftover buffer is empty. *)
Definition New (seed : Z) : Reader := mkReader (seed_state seed) [].

End ByteStream.

Arguments mkReader {Engine} engine leftover.
Arguments engine {Engine} r.
Arguments leftover {Engine} r.
Arguments draw_words {Engine} next_u64 k e.
Arguments Read {Engine} next_u64 n r.
Arguments read_by_one_byte {Engine} next_u64 N r.
Arguments New {Engine} seed_state seed.

(** ** Bounded sampling and shuffling

    The bounded samplers and [Shuffle] are not among the sources at hand;
    only the tests that call them are. *)

Inductive error_kind : Type :=
| DomainError
| InvalidArgument
| FormatError.

Inductive result (A : Type) : Type :=
| Ok (a : A)
| Err (e : error_kind)
| OutOfFuel.

Arguments Ok {A} a.
Arguments Err {A} e.
Arguments OutOfFuel {A}.

(** The widths of the bounded samplers. *)
Inductive width : Type :=
| W32
| W63
| W64.

Definition width_bits (w : width) : Z :=
  match w with
  | W32 => 32
  | W63 => 63
  | W64 => 64
  end.

Definition is_power_of_two (n : Z) : bool :=
  (0 <? n) && (Z.land n (n - 1) =? 0).

(** The largest multiple of [n] within the range of the width. *)
Definition max_multiple (w : width) (n : Z) : Z :=
  2 ^ width_bits w / n * n.

Section BoundedSampler.

Variable Engine : Type.
Variable next_u64 : Engine -> Z * Engine.

(** The integer derivation layer (section 4.2): the value of the given
    width that one raw word yields. *)
Variable derive : width -> Z -> Z.

(** Draw, and redraw while the draw is at or above the largest multiple of
    [n]; then reduce modulo [n]. *)
Fixpoint reject_loop (fuel : nat) (w : width) (n : Z) (e : Engine)
  : result Z * Engine :=
  match fuel with
  | O => (OutOfFuel, e)
  | S fuel' =>
      let '(v, e1) := next_u64 e in
      let d := derive w v in
      if d <? max_multiple w n then (Ok (d mod n), e1)
      else reject_loop fuel' w n e1
  end.

(** Modelled from the spec: [uniform_below] (sections 4.3 and 7), the
    bounded samplers of every width, signed ([signed = true]) and unsigned.
    A bound [n = 0] (for a signed sampler, [n <= 0]) is a [DomainError]; a
    power of two takes one masked draw; any other bound goes through the
    rejection loop. *)
Definition uniform_below (w : width) (signed : bool) (n : Z) (fuel : nat)
  (e : Engine) : result Z * Engine :=
  if (n =? 0) || (signed && (n <? 0)) then (Err DomainError, e)
  else if is_power_of_two n then
    let '(v, e1) := next_u64 e in
    (Ok (Z.land (derive w v) (n - 1)), e1)
  else reject_loop fuel w n e.

(** The next [k] raw words of an engine. *)
Fixpoint raw_words (k : nat) (e : Engine) : list Z :=
  match k with
  | O => []
  | S k' => let '(v, e1) := next_u64 e in v :: raw_words k' e1
  end.

(** The width [Shuffle] samples its indices at. *)
Variable shuffle_width : width.

(** The caller of [Shuffle]: its data and its [swap] callback. *)
Variable Data : Type.
Variable swap : Z -> Z -> Data -> Data.

(** The loop of the shuffle at index [i], going down to 1: element [i] is
    swapped with a uniformly chosen index in [[0, i]]. *)
Fixpoint shuffle_from (i : nat) (fuel : nat) (d : Data) (e : Engine)
  : result Data * Engine :=
  match i with
  | O => (Ok d, e)
  | S i' =>
      match uniform_below shuffle_width false (Z.of_nat i + 1) fuel e with
      | (Ok j, e1) => shuffle_from i' fuel (swap (Z.of_nat i) j d) e1
      | (Err k, e1) => (Err k, e1)
      | (OutOfFuel, e1) => (OutOfFuel, e1)
      end
  end.

(** Modelled from the spec: [shuffle(n, swap)] (sections 4.6 and 7), a
    Fisher-Yates pass from the last index down to 1 through the bounded
    sampler; a negative [n] is an [InvalidArgument]. *)
Definition Shuffle (n : Z) (fuel : nat) (d : Data) (e : Engine)
  : result Data * Engine :=
  if n <? 0 then (Err InvalidArgument, e)
  else shuffle_from (Z.to_nat n - 1) fuel d e.

End BoundedSampler.

Arguments reject_loop {Engine} next_u64 derive fuel w n e.
Arguments uniform_below {Engine} next_u64 derive w signed n fuel e.
Arguments raw_words {Engine} next_u64 k e.
Arguments shuffle_from {Engine} next_u64 derive shuffle_width {Data} swap
  i fuel d e.
Arguments Shuffle {Engine} next_u64 derive shuffle_width {Data} swap
  n fuel d e.

(** A [swap] callback that only records the calls made to it. *)
Definition recording_swap (i j : Z) (calls : list (Z * Z)) : list (Z * Z) :=
  calls ++ [(i, j)].

(** The raw-word half of the call-recording engine, for code that never asks
    for a float. *)
Definition logged_u64 {Engine : Type} (next_u64 : Engine -> Z * Engine)
  (s : Engine * list Z) : Z * (Engine * list Z) :=
  let '(v, e1) := next_u64 (fst s) in (v, (e1, snd s ++ [v])).

(** ** Table generation: [initExp] of [std_rand_test.go]

    The generator is modelled over the real numbers: every [float64]
    operation of the Go function is the exact operation on reals, and
    [math.Exp] and [math.Log] are the real exponential and logarithm.  The
    constants [re] and [ve] are parameters, so that one development serves
    the decimal constants and their binary64 roundings alike. *)


















(** ** Fixed-point enclosures

    Reals are enclosed between integers read at the scale [2^-192]; the
    integers are held as [bigZ] so that the enclosures compute quickly. *)

Definition prec : Z := 192.
Definition scale : Z := 2 ^ prec.
Definition halvings : nat := 80.

Definition H2 : bigZ := Eval vm_compute in BigZ.of_Z (2 ^ Z.of_nat halvings).

(** The real a fixed-point integer stands for. *)
Definition val (x : bigZ) : R := (IZR (BigZ.to_Z x) / IZR scale)%R.
























(** ** The helpers of the test files, on binary64 values

    [max], [nearEqual], [getStatsResults], [checkSimilarDistribution],
    [checkSampleDistribution], [checkSampleSliceDistributions] and the two
    slice comparisons of [std_rand_test.go], with [float64] as primitive
    binary64 floats and [int] as [Z]. *)

(** [func max(a, b float64) float64]. *)
Definition max64 (a b : float) : float :=
  if (b <? a)%float then a else b.

Definition SmallestNonzeroFloat64_f : float := 0x1p-1074%float.

(** [nearEqual], on binary64 values. *)
Definition nearEqual64 (a b closeEnough maxError : float) : bool :=
  let absDiff := PrimFloat.abs (a - b)%float in
  if (absDiff <? closeEnough)%float then true
  else (absDiff / (max64 (PrimFloat.abs a) (PrimFloat.abs b)
                   + SmallestNonzeroFloat64_f)
        <? maxError)%float.

(** [float64(n)] for an integer [n]: round to nearest, ties to even. *)
Definition float64_of_Z (n : Z) : float :=
  SF2Prim (binary_normalize FloatOps.prec emax n 0 false).

(** The body shared by [compareUint64Slices] and [compareFloat64Slices],
    over the test [near] each applies to a pair of elements. *)
Fixpoint first_disagreement {A : Type} (near : A -> A -> bool) (i : Z)
  (s1 s2 : list A) : Z :=
  match s1, s2 with
  | a :: s1', b :: s2' =>
      if near a b then first_disagreement near (i + 1) s1' s2' else i
  | _, _ => -1
  end.

Definition compareSlices {A : Type} (near : A -> A -> bool)
  (s1 s2 : list A) : Z :=
  if negb (length s1 =? length s2)%nat then
    if (length s2 <? length s1)%nat then Z.of_nat (length s2) + 1
    else Z.of_nat (length s1) + 1
  else first_disagreement near 0 s1 s2.

Definition compareFloat64Slices64 (s1 s2 : list float) : Z :=
  compareSlices (fun a b => nearEqual64 a b 0 1e-12) s1 s2.

Definition compareUint64Slices64 (s1 s2 : list Z) : Z :=
  compareSlices
    (fun a b => nearEqual64 (float64_of_Z a) (float64_of_Z b) 0 1e-12) s1 s2.

(** [type statsResults struct]. *)
Record statsResults : Type := mkStats {
  mean : float;
  stddev : float;
  closeEnough : float;
  maxError : float
}.

(** [getStatsResults]: one pass accumulating the sum and the sum of squares;
    the two tolerance fields keep their zero value. *)
Definition getStatsResults (samples : list float) : statsResults :=
  let '(sum, squaresum) :=
    fold_left (fun acc s => (fst acc + s, snd acc + s * s)%float)
      samples (0, 0)%float in
  let n := float64_of_Z (Z.of_nat (length samples)) in
  let mean := (sum / n)%float in
  mkStats mean (PrimFloat.sqrt (squaresum / n - mean * mean))%float 0 0.

(** The two errors [checkSimilarDistribution] can return, with the values
    its message prints. *)
Inductive dist_error : Type :=
| MeanError (got want : float)
| StddevError (got want : float).

(** [checkSimilarDistribution]: [None] is [nil]. *)
Definition checkSimilarDistribution (sr expected : statsResults)
  : option dist_error :=
  if negb (nearEqual64 (mean sr) (mean expected)
             (closeEnough expected) (maxError expected))
  then Some (MeanError (mean sr) (mean expected))
  else if negb (nearEqual64 (stddev sr) (stddev expected)
                  (closeEnough expected) (maxError expected))
  then Some (StddevError (stddev sr) (stddev expected))
  else None.

(** [checkSampleDistribution]; the test state [t] is the list of errors
    reported so far through [t.Errorf]. *)
Definition checkSampleDistribution (expected : statsResults)
  (t : list dist_error) (samples : list float) : list dist_error :=
  match checkSimilarDistribution (getStatsResults samples) expected with
  | Some e => t ++ [e]
  | None => t
  end.

Section SliceChecks.

Variable A : Type.
Variable T : Type.

(** What is done with each chunk; [checkSampleDistribution] in the code. *)
Variable check : T -> list A -> T.

(** [s[low:high]] for a slice whose capacity is its length; [None] is the
    run-time panic on bounds out of range. *)
Definition go_slice (s : list A) (low high : Z) : option (list A) :=
  if (0 <=? low) && (low <=? high) && (high <=? Z.of_nat (length s)) then
    Some (firstn (Z.to_nat (high - low)) (skipn (Z.to_nat low) s))
  else None.

(** [for i := 0; i < nslices; i++], with [k] passes left.  The products
    stay below [len(samples)], so no [int] wraps around. *)
Fixpoint slices_loop (k : nat) (i chunk nslices : Z) (samples : list A)
  (t : T) : option T :=
  match k with
  | O => Some t
  | S k' =>
      let low := i * chunk in
      let high :=
        if i =? nslices - 1 then Z.of_nat (length samples) - 1
        else (i + 1) * chunk in
      match go_slice samples low high with
      | Some c => slices_loop k' (i + 1) chunk nslices samples (check t c)
      | None => None
      end
  end.

(** [checkSampleSliceDistributions]; [None] is a run-time panic (the
    integer division by zero, or a slice out of range). *)
Definition checkSampleSliceDistributions (t : T) (samples : list A)
  (nslices : Z) : option T :=
  if nslices =? 0 then None
  else
    slices_loop (Z.to_nat nslices) 0
      (Z.quot (Z.of_nat (length samples)) nslices) nslices samples t.

End SliceChecks.

Arguments go_slice {A} s low high.
Arguments slices_loop {A T} check k i chunk nslices samples t.
Arguments checkSampleSliceDistributions {A T} check t samples nslices.

(** A [check] that only records the chunks it is given. *)
Definition record_chunk {A : Type} (t : list (list A)) (c : list A)
  : list (list A) := t ++ [c].

(** The chunk that pass [i] of [checkSampleSliceDistributions] cuts, and
    the chunks of [k] passes from pass [i] on. *)
Definition chunk_at {A : Type} (samples : list A) (nslices i : Z) : list A :=
  let len := Z.of_nat (length samples) in
  let chunk := Z.quot len nslices in
  let low := i * chunk in
  let high := if i =? nslices - 1 then len - 1 else (i + 1) * chunk in
  firstn (Z.to_nat (high - low)) (skipn (Z.to_nat low) samples).

Fixpoint chunks_from {A : Type} (samples : list A) (nslices : Z) (k : nat)
  (i : Z) : list (list A) :=
  match k with
  | O => []
  | S k' => chunk_at samples nslices i :: chunks_from samples nslices k' (i + 1)
  end.

(** ** [encodePerm] *)

(** Arithmetic on [int] (64 bits) wraps around. *)
Definition int_wrap (z : Z) : Z := (z + 2 ^ 63) mod 2 ^ 64 - 2 ^ 63.

(** The inner loop at index [i]: with [x = s[i]], every later element
    above [x] is decremented. *)
Definition lehmer_pass (i : nat) (s : list Z) : list Z :=
  let x := nth i s 0 in
  firstn (S i) s
  ++ map (fun y => if x <? y then int_wrap (y - 1) else y) (skipn (S i) s).

(** [for i, x := range s], with [k] indices left. *)
Fixpoint lehmer_loop (k i : nat) (s : list Z) : list Z :=
  match k with
  | O => s
  | S k' => lehmer_loop k' (S i) (lehmer_pass i s)
  end.

(** [for i := len(s) - 1; i >= 0; i--], with the indices below [i] left. *)
Fixpoint radix_loop (i : nat) (s : list Z) (m fact : Z) : Z :=
  match i with
  | O => m
  | S i' =>
      radix_loop i' s
        (int_wrap (m + int_wrap (nth i' s 0 * fact)))
        (int_wrap (fact * (Z.of_nat (length s) - Z.of_nat i')))
  end.

(** [encodePerm]: the code returned, and the slice as the call leaves it. *)
Definition encodePerm (s : list Z) : Z * list Z :=
  let s' := lehmer_loop (length s) 0 s in
  (radix_loop (length s') s' 0 1, s').

(** A slice such as [Perm] generates: the numbers [0 .. n-1] in some
    order. *)
Definition is_perm (s : list Z) : Prop :=
  NoDup s /\ Forall (fun x => 0 <= x < Z.of_nat (length s)) s.

(** The digits of the factorial number system: the digit at distance [k]
    from the end is at most [k]. *)
Fixpoint digits_ok (l : list Z) : Prop :=
  match l with
  | [] => True
  | x :: r => 0 <= x <= Z.of_nat (length r) /\ digits_ok r
  end.

(** [n!], as an integer. *)
Fixpoint Zfact (n : nat) : Z :=
  match n with
  | O => 1
  | S n' => (Z.of_nat n' + 1) * Zfact n'
  end.

Fixpoint radix_value (l : list Z) : Z :=
  match l with
  | [] => 0
  | x :: r => x * Zfact (length r) + radix_value r
  end.

(** The passes of [lehmer_loop] as a recursion on the remaining slice. *)
Definition dec_above (x : Z) (r : list Z) : list Z :=
  map (fun y => if x <? y then int_wrap (y - 1) else y) r.

Fixpoint lehmer_rec (n : nat) (s : list Z) : list Z :=
  match n, s with
  | S n', x :: r => x :: lehmer_rec n' (dec_above x r)
  | _, _ => s
  end.

(** [y] after the pass that removed [x]. *)
Definition dec1 (x y : Z) : Z := if x <? y then y - 1 else y.




(** ** The layers of the regenerated tables *)



(** * Properties *)

(** ** The word split *)

Lemma layer_index_mod (v : Z) : layer_index v = v mod 2 ^ 8.
Proof. unfold layer_index. change 0xFF with (Z.ones 8). now rewrite Z.land_ones. Qed.

Lemma magnitude_div (v : Z) : magnitude v = v / 2 ^ 11.
Proof. unfold magnitude. now rewrite Z.shiftr_div_pow2. Qed.

Lemma layer_index_range (v : Z) : 0 <= layer_index v <= 255.
Proof.
  rewrite layer_index_mod.
  pose proof (Z.mod_pos_bound v (2 ^ 8) eq_refl). change (2 ^ 8) with 256 in *. lia.
Qed.

(** C2, as claimed, fails: bit 8 of the word belongs neither to [i] nor
    to [j]. *)
Lemma C2_split_counterexample : ~ splits_at_bit_8 256.
Proof. unfold splits_at_bit_8. vm_compute. intros [_ H]. discriminate H. Qed.

(** C2, amended: the low 8 bits of the word are the layer index [i], in
    0..255; the top 53 bits ([v >> 11]) are the magnitude [j], below [2^53];
    bits 8, 9 and 10 enter neither. *)
Theorem C2_word_split (v : Z) (Hv : 0 <= v < 2 ^ 64) :
  layer_index v = v mod 2 ^ 8 /\
  0 <= layer_index v <= 255 /\
  magnitude v = v / 2 ^ 11 /\
  0 <= magnitude v < 2 ^ 53 /\
  v = magnitude v * 2 ^ 11 + ((v / 2 ^ 8) mod 2 ^ 3) * 2 ^ 8 + layer_index v.
Proof.
  split; [apply layer_index_mod|].
  split; [apply layer_index_range|].
  split; [apply magnitude_div|].
  rewrite magnitude_div, layer_index_mod.
  change (2 ^ 64) with (2 ^ 53 * 2 ^ 11) in Hv.
  split.
  - split.
    + apply Z.div_pos; lia.
    + apply Z.div_lt_upper_bound; lia.
  - change (2 ^ 11) with (2 ^ 8 * 2 ^ 3).
    rewrite <- Z.div_div by lia.
    pose proof (Z.div_mod v (2 ^ 8) ltac:(lia)).
    pose proof (Z.div_mod (v / 2 ^ 8) (2 ^ 3) ltac:(lia)).
    lia.
Qed.

Lemma C2_word_split_witness :
  0 <= 0x12345 < 2 ^ 64 /\
  (layer_index 0x12345 = 0x12345 mod 2 ^ 8 /\
   0 <= layer_index 0x12345 <= 255 /\
   magnitude 0x12345 = 0x12345 / 2 ^ 11 /\
   0 <= magnitude 0x12345 < 2 ^ 53 /\
   0x12345 = magnitude 0x12345 * 2 ^ 11
             + ((0x12345 / 2 ^ 8) mod 2 ^ 3) * 2 ^ 8 + layer_index 0x12345).
Proof. split; [lia | apply (C2_word_split 0x12345); lia]. Defined.

(** ** One pass of the loop against the state machine *)

Section StateMachineFacts.

Variable Rand : Type.
Variable Uint64 : Rand -> Z * Rand.
Variable Float64 : Rand -> float * Rand.
Variable Log : float -> float.
Variable Exp : float -> float.

Local Notation "'body'" := (ExpFloat64_body Uint64 Float64 Log Exp).
Local Notation "'loop'" := (ExpFloat64 Uint64 Float64 Log Exp).
Local Notation "'step'" := (zig_step Uint64 Float64 Log Exp).
Local Notation "'run'" := (zig_run Uint64 Float64 Log Exp).

Lemma body_sound (r : Rand) : step r (fst (body r)) (snd (body r)).
Proof.
  unfold ExpFloat64_body.
  destruct (Uint64 r) as [v r1] eqn:Ev.
  destruct (Z.ltb_spec (magnitude v) (ke_at (layer_index v))) as [Hlt | Hge].
  - cbn. now apply zig_fast.
  - assert (Hn : ~ magnitude v < ke_at (layer_index v)) by lia.
    destruct (Z.eqb_spec (layer_index v) 0) as [Hi | Hi];
      destruct (Float64 r1) as [u r2] eqn:Eu.
    + cbn. now apply zig_tail with v r1.
    + fold (candidate v). fold (wedge_test Exp v u).
      destruct (wedge_test Exp v u) eqn:Ew; cbn.
      * now apply zig_accept with r1 u.
      * now apply zig_reject with v r1 u.
Qed.

Lemma step_functional (r : Rand) (o : outcome) (r' : Rand) :
  step r o r' -> body r = (o, r').
Proof.
  intros H. unfold ExpFloat64_body.
  destruct H as [v r1 Ev Hlt | v r1 u r2 Ev Hge Hi Eu
                | v r1 u r2 Ev Hge Hi Eu Ew | v r1 u r2 Ev Hge Hi Eu Ew];
    rewrite Ev.
  - apply Z.ltb_lt in Hlt. now rewrite Hlt.
  - apply Z.ltb_nlt in Hge. rewrite Hge.
    apply Z.eqb_eq in Hi. now rewrite Hi, Eu.
  - apply Z.ltb_nlt in Hge. rewrite Hge.
    apply Z.eqb_neq in Hi. rewrite Hi, Eu.
    fold (candidate v). fold (wedge_test Exp v u). now rewrite Ew.
  - apply Z.ltb_nlt in Hge. rewrite Hge.
    apply Z.eqb_neq in Hi. rewrite Hi, Eu.
    fold (candidate v). fold (wedge_test Exp v u). now rewrite Ew.
Qed.

Lemma body_iff_step (r : Rand) (o : outcome) (r' : Rand) :
  body r = (o, r') <-> step r o r'.
Proof.
  split.
  - intros H. pose proof (body_sound r) as S. now rewrite H in S.
  - apply step_functional.
Qed.

Lemma loop_sound (fuel : nat) :
  forall r x r', loop fuel r = Some (x, r') -> run r x r'.
Proof.
  induction fuel as [| fuel IH]; intros r x r' H; [discriminate H|].
  cbn [ExpFloat64] in H.
  destruct (body r) as [[y |] r1] eqn:Eb.
  - injection H as -> ->. apply run_return. now apply body_iff_step.
  - apply run_restart with r1; [now apply body_iff_step | now apply IH].
Qed.

Lemma run_complete (r : Rand) (x : float) (r' : Rand) :
  run r x r' -> exists fuel, loop fuel r = Some (x, r').
Proof.
  induction 1 as [r x r' Hs | r r1 x r' Hs _ [fuel IH]].
  - exists 1%nat. cbn. now rewrite (step_functional _ _ _ Hs).
  - exists (S fuel). cbn [ExpFloat64]. now rewrite (step_functional _ _ _ Hs).
Qed.

Lemma loop_more_fuel (fuel : nat) :
  forall r x r', loop fuel r = Some (x, r') -> loop (S fuel) r = Some (x, r').
Proof.
  induction fuel as [| fuel IH]; intros r x r' H; [discriminate H|].
  cbn [ExpFloat64] in *.
  destruct (body r) as [[y |] r1]; [exact H | now apply IH].
Qed.

(** C3: every pass of the loop of [ExpFloat64] is one step of the ziggurat
    state machine (candidate [x = j * we[i]]; returned at once when
    [j < ke[i]]; the tail value [re - ln u] in layer 0; otherwise
    returned exactly when [fe[i] + u * (fe[i-1] - fe[i]) < exp (-x)],
    and a failed test restarts the loop on the engine state it left), and
    a call returns exactly what a run of that machine returns. *)
Theorem C3_ziggurat_state_machine :
  (forall r o r', body r = (o, r') <-> step r o r') /\
  (forall r fuel,
      loop (S fuel) r =
      match body r with
      | (Return x, r') => Some (x, r')
      | (Restart, r') => loop fuel r'
      end) /\
  (forall r x r', (exists fuel, loop fuel r = Some (x, r')) <-> run r x r') /\
  re = 7.69711747013104972%float.
Proof.
  split; [exact body_iff_step|].
  split; [reflexivity|].
  split; [|reflexivity].
  intros r x r'. split.
  - intros [fuel H]. now apply loop_sound with fuel.
  - apply run_complete.
Qed.

End StateMachineFacts.

(** ** The fast path *)

Section FastPath.

Variable Rand : Type.
Variable Uint64 : Rand -> Z * Rand.
Variable Float64 : Rand -> float * Rand.
Variable Log : float -> float.
Variable Exp : float -> float.

(** C10: a pass of the loop on which [j < ke[i]] holds for the drawn word
    returns the candidate having called the engine exactly once, for that
    raw word, and never for a uniform float: the record of engine calls
    grows by the single entry [EvUint64 v], and the engine is left in the
    state that one [Uint64] call leaves it in.  The same holds of the whole
    call when its first pass takes the fast path. *)
Theorem C10_fast_path_one_word (r : Rand) (log : list event) (fuel : nat) :
  let v := fst (Uint64 r) in
  magnitude v < ke_at (layer_index v) ->
  ExpFloat64_body (traced_Uint64 Uint64) (traced_Float64 Float64) Log Exp
    (r, log)
  = (Return (candidate v), (snd (Uint64 r), log ++ [EvUint64 v])) /\
  ExpFloat64 (traced_Uint64 Uint64) (traced_Float64 Float64) Log Exp
    (S fuel) (r, log)
  = Some (candidate v, (snd (Uint64 r), log ++ [EvUint64 v])).
Proof.
  intros v H.
  assert (E : ExpFloat64_body (traced_Uint64 Uint64) (traced_Float64 Float64)
                Log Exp (r, log)
              = (Return (candidate v), (snd (Uint64 r), log ++ [EvUint64 v]))).
  { unfold ExpFloat64_body, traced_Uint64. cbn [fst snd]. subst v.
    destruct (Uint64 r) as [w r1]. cbn [fst snd] in *.
    apply Z.ltb_lt in H. now rewrite H. }
  split; [exact E|].
  cbn [ExpFloat64]. now rewrite E.
Qed.

End FastPath.

Lemma C10_fast_path_one_word_witness :
  let t := mkTape (fun _ => 0x2345) 0 in
  magnitude 0x2345 < ke_at (layer_index 0x2345) /\
  ExpFloat64 (traced_Uint64 tape_Uint64) (traced_Float64 tape_Float64)
    (fun x => x) (fun x => x) 1 (t, [])
  = Some (candidate 0x2345, (mkTape (fun _ => 0x2345) 1, [EvUint64 0x2345])).
Proof.
  intros t. split; [vm_compute; reflexivity|].
  apply (C10_fast_path_one_word Tape tape_Uint64 tape_Float64
           (fun x => x) (fun x => x) t [] 0).
  vm_compute. reflexivity.
Defined.

(** ** The range of the result *)

Lemma zero_word_returns_zero (Rand : Type) (Uint64 : Rand -> Z * Rand)
  (Float64 : Rand -> float * Rand) (Log Exp : float -> float)
  (r : Rand) (fuel : nat) :
  fst (Uint64 r) = 0 ->
  ExpFloat64 Uint64 Float64 Log Exp (S fuel) r = Some (0%float, snd (Uint64 r)).
Proof.
  intros H. cbn [ExpFloat64]. unfold ExpFloat64_body.
  destruct (Uint64 r) as [v r1]. cbn [fst snd] in *. subst v. reflexivity.
Qed.

(** C1 fails on the code: when the engine hands out the raw word 0, the
    first pass has [i = 0] and [j = 0 < ke[0]], and the call returns
    [0 * we[0] = 0], which is outside the documented range
    [(0, +math.MaxFloat64]]. *)
Theorem C1_zero_word_returns_zero (Log Exp : float -> float) :
  ExpFloat64 tape_Uint64 tape_Float64 Log Exp 1 (mkTape (fun _ => 0) 0)
  = Some (0%float, mkTape (fun _ => 0) 1) /\
  in_documented_range 0%float = false.
Proof.
  split; [|reflexivity].
  now rewrite zero_word_returns_zero.
Qed.

(** ** Monotonicity of the density table *)

Lemma fe_steps_ok : forallb fe_step_ok (seq 0 255) = true.
Proof. vm_compute. reflexivity. Qed.

(** C9: [fe[0] = 1], and for every [i] in 1..255 the table decreases
    strictly, [fe[i-1] > fe[i]], and the interpolation coefficient
    [fe[i-1] - fe[i]] of the rejection test is strictly positive. *)
Theorem C9_fe_strictly_decreasing (i : Z) (Hi : 1 <= i <= 255) :
  fe_at 0 = 1%float /\
  (fe_at i <? fe_at (i - 1))%float = true /\
  (0 <? fe_at (i - 1) - fe_at i)%float = true.
Proof.
  split; [reflexivity|].
  pose proof fe_steps_ok as H.
  rewrite forallb_forall in H.
  specialize (H (Z.to_nat (i - 1))).
  assert (Hin : In (Z.to_nat (i - 1)) (seq 0 255)) by (apply in_seq; lia).
  apply H in Hin. unfold fe_step_ok in Hin.
  apply andb_prop in Hin. unfold fe_at.
  replace (Z.to_nat i) with (S (Z.to_nat (i - 1))) by lia.
  exact Hin.
Qed.

Lemma C9_fe_strictly_decreasing_witness :
  1 <= 7 <= 255 /\
  (fe_at 0 = 1%float /\
   (fe_at 7 <? fe_at (7 - 1))%float = true /\
   (0 <? fe_at (7 - 1) - fe_at 7)%float = true).
Proof. split; [lia | apply (C9_fe_strictly_decreasing 7); lia]. Defined.

(** ** Read granularity *)

Section ReadFacts.

Variable Engine : Type.
Variable next_u64 : Engine -> Z * Engine.

Lemma draw_words_succ (k : nat) (e : Engine) :
  draw_words next_u64 (S k) e
  = (word_bytes (fst (next_u64 e))
       ++ fst (draw_words next_u64 k (snd (next_u64 e))),
     snd (draw_words next_u64 k (snd (next_u64 e)))).
Proof.
  cbn [draw_words]. destruct (next_u64 e) as [w e1]. cbn [fst snd].
  now destruct (draw_words next_u64 k e1).
Qed.

Lemma Read_drained (n : nat) (e : Engine) :
  Read next_u64 n (mkReader e [])
  = match n with
    | O => ([], mkReader e [])
    | S _ =>
        let '(body, e1) := draw_words next_u64 (n / 8) e in
        match (n mod 8)%nat with
        | O => (body, mkReader e1 [])
        | S _ =>
            let '(w, e2) := next_u64 e1 in
            (body ++ firstn (n mod 8) (word_bytes w),
             mkReader e2 (skipn (n mod 8) (word_bytes w)))
        end
    end.
Proof.
  destruct n as [| n]; [reflexivity|].
  unfold Read. cbn [leftover engine length Nat.leb app].
  rewrite Nat.sub_0_r. reflexivity.
Qed.

Lemma Read_buffered (n : nat) (e : Engine) (x : Z) (l : list Z) :
  Read next_u64 (S n) (mkReader e (x :: l))
  = (x :: fst (Read next_u64 n (mkReader e l)),
     snd (Read next_u64 n (mkReader e l))).
Proof.
  unfold Read. cbn [leftover engine length Nat.leb Nat.sub].
  destruct (n <=? length l)%nat; [reflexivity|].
  destruct (draw_words next_u64 ((n - length l) / 8) e) as [body e1].
  destruct ((n - length l) mod 8)%nat; [reflexivity|].
  now destruct (next_u64 e1).
Qed.

Lemma Read_one_drained (e : Engine) :
  Read next_u64 1 (mkReader e [])
  = ([fst (next_u64 e) mod 256],
     mkReader (snd (next_u64 e)) (le_bytes 7 (fst (next_u64 e) / 256))).
Proof.
  unfold Read. cbn. now destruct (next_u64 e).
Qed.

(** Reading [S n] bytes is reading one byte and then [n]. *)
Lemma Read_succ (n : nat) (r : Reader Engine) :
  Read next_u64 (S n) r
  = (fst (Read next_u64 1 r) ++ fst (Read next_u64 n (snd (Read next_u64 1 r))),
     snd (Read next_u64 n (snd (Read next_u64 1 r)))).
Proof.
  destruct r as [e [| x l]].
  - rewrite Read_one_drained. cbn [fst snd app].
    set (w := fst (next_u64 e)). set (e1 := snd (next_u64 e)).
    assert (Hn : (n < 8 \/ exists p, n = 8 + p)%nat).
    { destruct (Nat.lt_ge_cases n 8) as [H | H]; [now left | right].
      exists (n - 8)%nat. lia. }
    destruct Hn as [Hn | [p ->]].
    + do 8 (destruct n as [| n]; [
        unfold Read; cbn; fold w; fold e1;
        destruct (next_u64 e) as [w0 e0]; subst w e1; reflexivity |]).
      lia.
    + rewrite Read_drained.
      replace (S (8 + p)) with (S p + 1 * 8)%nat by lia.
      rewrite Nat.div_add by lia. rewrite Nat.Div0.mod_add.
      rewrite Nat.add_1_r, draw_words_succ. fold w e1.
      unfold Read at 1 2.
      cbn [leftover engine length le_bytes].
      replace (8 + p <=? 7)%nat with false by (symmetry; apply Nat.leb_gt; lia).
      replace (8 + p - 7)%nat with (S p) by lia.
      destruct (draw_words next_u64 (S p / 8) e1) as [body e2].
      cbn [fst snd].
      destruct (S p mod 8)%nat eqn:Em; [reflexivity|].
      destruct (next_u64 e2) as [w2 e3]. cbn [fst snd].
      unfold word_bytes at 1. cbn [le_bytes app]. reflexivity.
  - rewrite Read_buffered.
    unfold Read at 3 4 5. cbn [leftover engine length Nat.leb firstn skipn fst snd app].
    reflexivity.
Qed.

Lemma read_by_one_byte_Read (N : nat) :
  forall r : Reader Engine, read_by_one_byte next_u64 N r = Read next_u64 N r.
Proof.
  induction N as [| N IH]; intros r.
  - destruct r as [e l]. reflexivity.
  - cbn [read_by_one_byte]. rewrite (Read_succ N r).
    destruct (Read next_u64 1 r) as [b r1]. cbn [fst snd].
    rewrite IH. now destruct (Read next_u64 N r1).
Qed.

End ReadFacts.

(** C6: for every byte count [N] and every seed, [N] calls of [Read] with a
    buffer of length 1 on a freshly seeded generator yield the same bytes,
    and leave the generator in the same state, as one call with a buffer of
    length [N] on an identically seeded generator; the same holds from any
    generator state. *)
Theorem C6_read_granularity
  (Engine : Type) (next_u64 : Engine -> Z * Engine) (seed_state : Z -> Engine)
  (N : nat) (seed : Z) :
  read_by_one_byte next_u64 N (New seed_state seed)
  = Read next_u64 N (New seed_state seed) /\
  length (fst (Read next_u64 N (New seed_state seed))) = N /\
  forall r : Reader Engine, read_by_one_byte next_u64 N r = Read next_u64 N r.
Proof.
  split; [apply read_by_one_byte_Read|].
  split; [|apply read_by_one_byte_Read].
  rewrite <- read_by_one_byte_Read.
  generalize (New seed_state seed).
  induction N as [| N IH]; intros r; [reflexivity|].
  cbn [read_by_one_byte].
  destruct (Read next_u64 1 r) as [b r1] eqn:E1.
  specialize (IH r1).
  destruct (read_by_one_byte next_u64 N r1) as [bs r2]. cbn [fst] in *.
  rewrite length_app, IH.
  assert (Hb : length b = 1%nat); [|lia].
  destruct r as [e [| x l]].
  - rewrite Read_one_drained in E1. now injection E1 as <- _.
  - unfold Read in E1. cbn in E1. now injection E1 as <- _.
Qed.

(** ** Rejected bounds and trivial shuffles *)

(** C7: for every width, signed or unsigned, [uniform_below] with bound
    [n = 0] fails with [DomainError]; the failed call draws no raw word (the
    record of drawn words is unchanged) and leaves the generator state as it
    was, so that the raw words that follow, and the result of any operation
    run afterwards, are those of a generator on which the call was never
    made. *)
Theorem C7_zero_bound_domain_error
  (Engine : Type) (next_u64 : Engine -> Z * Engine) (derive : width -> Z -> Z)
  (w : width) (signed : bool) (fuel : nat) (e : Engine) (drawn : list Z) :
  uniform_below (logged_u64 next_u64) derive w signed 0 fuel (e, drawn)
  = (Err DomainError, (e, drawn)) /\
  uniform_below next_u64 derive w signed 0 fuel e = (Err DomainError, e) /\
  (forall k,
      raw_words next_u64 k
        (snd (uniform_below next_u64 derive w signed 0 fuel e))
      = raw_words next_u64 k e) /\
  (forall (A : Type) (op : Engine -> A),
      op (snd (uniform_below next_u64 derive w signed 0 fuel e)) = op e).
Proof. repeat split. Qed.

(** C8: [shuffle(0, swap)] and [shuffle(1, swap)] never call [swap] (a
    callback that records its calls has recorded none, and the data of any
    caller is untouched), and they draw no raw word and leave the generator
    state unchanged. *)
Theorem C8_shuffle_small
  (Engine : Type) (next_u64 : Engine -> Z * Engine) (derive : width -> Z -> Z)
  (shuffle_width : width) (n : Z) (Hn : 0 <= n <= 1)
  (fuel : nat) (e : Engine) (drawn : list Z) :
  Shuffle (logged_u64 next_u64) derive shuffle_width recording_swap
    n fuel [] (e, drawn)
  = (Ok [], (e, drawn)) /\
  (forall (Data : Type) (swap : Z -> Z -> Data -> Data) (d : Data),
      Shuffle next_u64 derive shuffle_width swap n fuel d e = (Ok d, e)).
Proof.
  assert (Hc : n = 0 \/ n = 1) by lia.
  destruct Hc as [-> | ->]; split; reflexivity.
Qed.

Lemma C8_shuffle_small_witness :
  0 <= 1 <= 1 /\
  (Shuffle (logged_u64 tape_Uint64) (fun _ v => v) W64 recording_swap
     1 0 [] (mkTape (fun _ => 5) 0, [])
   = (Ok [], (mkTape (fun _ => 5) 0, [])) /\
   (forall (Data : Type) (swap : Z -> Z -> Data -> Data) (d : Data),
       Shuffle tape_Uint64 (fun _ v => v) W64 swap 1 0 d
         (mkTape (fun _ => 5) 0)
       = (Ok d, mkTape (fun _ => 5) 0))).
Proof.
  split; [lia|].
  apply (C8_shuffle_small Tape tape_Uint64 (fun _ v => v) W64 1); lia.
Defined.

(** ** Regenerating the tables *)




Local Open Scope R_scope.

Lemma scale_pos : (0 < scale)%Z.
Proof. reflexivity. Qed.

Lemma Rscale_pos : 0 < IZR scale.
Proof. apply IZR_lt, scale_pos. Qed.






Lemma val_opp (a : bigZ) : val (- a) = - val a.
Proof. unfold val. rewrite BigZ.spec_opp, opp_IZR. field. pose proof Rscale_pos; lra. Qed.




Lemma val_nonneg (a : bigZ) : (0 <= BigZ.to_Z a)%Z -> 0 <= val a.
Proof.
  intros H. unfold val. apply Rmult_le_pos; [now apply IZR_le|].
  left. apply Rinv_0_lt_compat, Rscale_pos.
Qed.

Lemma val_nonpos (a : bigZ) : (BigZ.to_Z a <= 0)%Z -> val a <= 0.
Proof.
  intros H. rewrite <- (Ropp_involutive (val a)), <- val_opp.
  apply Ropp_le_cancel. rewrite Ropp_involutive, Ropp_0.
  apply val_nonneg. rewrite BigZ.spec_opp. lia.
Qed.







(** *** Bounds on the exponential *)











(** *** Bounds on the logarithm, on quotients and on floors *)















(** *** The enclosures follow the generator *)






(** *** From the check on enclosures to the comparison of the slices *)












(** *** The shipped tables at the fixed-point scale *)







(** *** The constants *)













(** * Further properties of the helpers *)

Local Open Scope Z_scope.

(** ** The slice comparisons *)

Section CompareFacts.

Variable A : Type.
Variable near : A -> A -> bool.

Lemma first_disagreement_spec (s1 : list A) :
  forall (s2 : list A) (i0 : Z),
    length s1 = length s2 ->
    (first_disagreement near i0 s1 s2 = -1
     /\ Forall2 (fun a b => near a b = true) s1 s2)
    \/ (exists (k : nat) (a b : A),
          first_disagreement near i0 s1 s2 = i0 + Z.of_nat k
          /\ nth_error s1 k = Some a /\ nth_error s2 k = Some b
          /\ near a b = false
          /\ Forall2 (fun a b => near a b = true) (firstn k s1) (firstn k s2)).
Proof.
  induction s1 as [| a s1 IH]; intros [| b s2] i0 Hlen;
    try discriminate Hlen; cbn [first_disagreement].
  - left. split; [reflexivity | constructor].
  - destruct (near a b) eqn:Eab.
    + injection Hlen as Hlen.
      destruct (IH s2 (i0 + 1) Hlen) as [[H1 H2] | (k & a' & b' & H1 & H2 & H3 & H4 & H5)].
      * left. split; [exact H1 | now constructor].
      * right. exists (S k), a', b'. rewrite H1. cbn [nth_error firstn].
        repeat split; try assumption; [lia | now constructor].
    + right. exists 0%nat, a, b. cbn [nth_error firstn].
      repeat split; try assumption; [lia | constructor].
Qed.

Lemma compareSlices_same_length (s1 s2 : list A) :
  length s1 = length s2 ->
  compareSlices near s1 s2 = first_disagreement near 0 s1 s2.
Proof.
  intros H. unfold compareSlices. now rewrite H, Nat.eqb_refl.
Qed.

Lemma compareSlices_agree (s1 s2 : list A) :
  compareSlices near s1 s2 < 0 <->
  length s1 = length s2 /\ Forall2 (fun a b => near a b = true) s1 s2.
Proof.
  split.
  - intros H. unfold compareSlices in H.
    destruct (length s1 =? length s2)%nat eqn:E; cbn [negb] in H.
    + apply Nat.eqb_eq in E. split; [exact E|].
      destruct (first_disagreement_spec s1 s2 0 E)
        as [[_ H2] | (k & a & b & H1 & _)]; [exact H2 | lia].
    + destruct (length s2 <? length s1)%nat; lia.
  - intros [E HF]. rewrite (compareSlices_same_length _ _ E).
    destruct (first_disagreement_spec s1 s2 0 E)
      as [[H1 _] | (k & a & b & _ & Ha & Hb & Hab & Hpre)]; [lia|].
    exfalso. clear E. revert k Ha Hb Hpre.
    induction HF as [| a' b' s1 s2 Hab' _ IH]; intros [| k] Ha Hb Hpre;
      cbn [nth_error] in Ha, Hb; try discriminate.
    + injection Ha as ->. injection Hb as ->. congruence.
    + cbn [firstn] in Hpre. inversion Hpre; subst. eauto.
Qed.

Lemma compareSlices_lengths (s1 s2 : list A) :
  length s1 <> length s2 ->
  compareSlices near s1 s2
  = Z.of_nat (Nat.min (length s1) (length s2)) + 1.
Proof.
  intros H. unfold compareSlices.
  apply Nat.eqb_neq in H. rewrite H. cbn [negb].
  destruct (Nat.ltb_spec (length s2) (length s1)) as [L | L].
  - now rewrite Nat.min_r by lia.
  - now rewrite Nat.min_l by lia.
Qed.

Lemma compareSlices_first (s1 s2 : list A) :
  length s1 = length s2 -> 0 <= compareSlices near s1 s2 ->
  exists (k : nat) (a b : A),
    compareSlices near s1 s2 = Z.of_nat k
    /\ nth_error s1 k = Some a /\ nth_error s2 k = Some b
    /\ near a b = false
    /\ Forall2 (fun a b => near a b = true) (firstn k s1) (firstn k s2).
Proof.
  intros E H. rewrite (compareSlices_same_length _ _ E) in *.
  destruct (first_disagreement_spec s1 s2 0 E)
    as [[H1 _] | (k & a & b & H1 & H2)]; [lia|].
  exists k, a, b. split; [lia | exact H2].
Qed.

End CompareFacts.

(** X1: each of the two slice comparisons returns a negative number
    exactly when the slices have the same length and every pair of
    corresponding elements passes [nearEqual] with tolerance [1e-12]. *)
Theorem compare_negative_iff_all_near :
  (forall s1 s2 : list float,
      compareFloat64Slices64 s1 s2 < 0 <->
      length s1 = length s2
      /\ Forall2 (fun a b => nearEqual64 a b 0 1e-12 = true) s1 s2) /\
  (forall s1 s2 : list Z,
      compareUint64Slices64 s1 s2 < 0 <->
      length s1 = length s2
      /\ Forall2 (fun a b => nearEqual64 (float64_of_Z a) (float64_of_Z b)
                               0 1e-12 = true) s1 s2).
Proof. split; intros s1 s2; apply compareSlices_agree. Qed.

(** X2: on slices of different lengths the comparisons look at no element
    and return the shorter length plus one, which is not an index of the
    shorter slice. *)
Theorem compare_length_mismatch (s1 s2 : list float) :
  length s1 <> length s2 ->
  compareFloat64Slices64 s1 s2
  = Z.of_nat (Nat.min (length s1) (length s2)) + 1 /\
  (nth_error s1 (Z.to_nat (compareFloat64Slices64 s1 s2)) = None
   \/ nth_error s2 (Z.to_nat (compareFloat64Slices64 s1 s2)) = None).
Proof.
  intros H.
  assert (E := compareSlices_lengths float
                 (fun a b => nearEqual64 a b 0 1e-12) s1 s2 H).
  unfold compareFloat64Slices64. rewrite E. split; [reflexivity|].
  destruct (Nat.le_ge_cases (length s1) (length s2)) as [L | L].
  - left. apply nth_error_None. lia.
  - right. apply nth_error_None. lia.
Qed.

Lemma compare_length_mismatch_witness :
  length [1%float] <> length (@nil float) /\
  (compareFloat64Slices64 [1%float] []
   = Z.of_nat (Nat.min (length [1%float]) (length (@nil float))) + 1 /\
   (nth_error [1%float] (Z.to_nat (compareFloat64Slices64 [1%float] []))
    = None
    \/ nth_error (@nil float)
         (Z.to_nat (compareFloat64Slices64 [1%float] [])) = None)).
Proof.
  split; [discriminate|].
  apply (compare_length_mismatch [1%float] []). discriminate.
Defined.

(** X3: on slices of the same length, a non-negative result is the first
    index at which the elements fail [nearEqual]: it is a valid index, the
    pair there fails, and every earlier pair passes. *)
Theorem compare_first_failure (s1 s2 : list float) :
  length s1 = length s2 -> 0 <= compareFloat64Slices64 s1 s2 ->
  exists (k : nat) (a b : float),
    compareFloat64Slices64 s1 s2 = Z.of_nat k
    /\ nth_error s1 k = Some a /\ nth_error s2 k = Some b
    /\ nearEqual64 a b 0 1e-12 = false
    /\ Forall2 (fun a b => nearEqual64 a b 0 1e-12 = true)
         (firstn k s1) (firstn k s2).
Proof. apply compareSlices_first. Qed.

Lemma compare_first_failure_witness :
  length [1; 2]%float = length [1; 3]%float /\
  0 <= compareFloat64Slices64 [1; 2]%float [1; 3]%float /\
  exists (k : nat) (a b : float),
    compareFloat64Slices64 [1; 2]%float [1; 3]%float = Z.of_nat k
    /\ nth_error [1; 2]%float k = Some a /\ nth_error [1; 3]%float k = Some b
    /\ nearEqual64 a b 0 1e-12 = false
    /\ Forall2 (fun a b => nearEqual64 a b 0 1e-12 = true)
         (firstn k [1; 2]%float) (firstn k [1; 3]%float).
Proof.
  split; [reflexivity|]. split; [vm_compute; discriminate|].
  apply (compare_first_failure [1; 2]%float [1; 3]%float);
    [reflexivity | vm_compute; discriminate].
Defined.

(** ** The chunks of [checkSampleSliceDistributions] *)

Lemma firstn_sum (A : Type) (a b : nat) (l : list A) :
  firstn (a + b) l = firstn a l ++ firstn b (skipn a l).
Proof.
  revert l. induction a as [| a IH]; intros [| x l]; cbn [Nat.add firstn skipn app].
  - now rewrite firstn_nil.
  - reflexivity.
  - now rewrite firstn_nil.
  - now rewrite IH.
Qed.

Section ChunkFacts.

Variable A : Type.
Variable samples : list A.
Variable nslices : Z.

Local Notation "'len'" := (Z.of_nat (length samples)).
Local Notation "'chunk'" := (Z.quot (Z.of_nat (length samples)) nslices).
Local Notation "'piece'" := (chunk_at samples nslices).
Local Notation "'chunks'" := (chunks_from samples nslices).

Hypothesis Hn : 1 <= nslices.
Hypothesis Hlen : 1 <= len.

Lemma chunk_bounds : 0 <= chunk /\ nslices * chunk <= len.
Proof.
  rewrite Z.quot_div_nonneg by lia.
  split; [apply Z.div_pos; lia | apply Z.mul_div_le; lia].
Qed.

Lemma last_low : (nslices - 1) * chunk <= len - 1.
Proof using Hn Hlen.
  destruct chunk_bounds as [H0 H1].
  destruct (Z.eq_dec chunk 0) as [-> | Hc]; nia.
Qed.

Lemma slices_loop_chunks (T : Type) (check : T -> list A -> T) (k : nat) :
  forall (i : Z) (t : T),
    0 <= i -> i + Z.of_nat k = nslices ->
    slices_loop check k i chunk nslices samples t
    = Some (fold_left check (chunks k i) t).
Proof using Hn Hlen.
  destruct chunk_bounds as [H0 H1]. pose proof last_low as HL.
  induction k as [| k IH]; intros i t Hi Hk; cbn [slices_loop chunks_from fold_left].
  - reflexivity.
  - unfold go_slice.
    destruct (Z.eqb_spec i (nslices - 1)) as [-> | Hne].
    + replace ((0 <=? (nslices - 1) * chunk)
               && ((nslices - 1) * chunk <=? len - 1)
               && (len - 1 <=? len)) with true
        by (symmetry; rewrite !andb_true_iff, !Z.leb_le; nia).
      rewrite IH by lia. unfold chunk_at. rewrite Z.eqb_refl. reflexivity.
    + replace ((0 <=? i * chunk) && (i * chunk <=? (i + 1) * chunk)
               && ((i + 1) * chunk <=? len)) with true
        by (symmetry; rewrite !andb_true_iff, !Z.leb_le; nia).
      rewrite IH by lia. unfold chunk_at.
      destruct (Z.eqb_spec i (nslices - 1)); [contradiction | reflexivity].
Qed.

Lemma concat_chunks_from (k : nat) :
  forall i : Z,
    0 <= i -> i + Z.of_nat (S k) = nslices ->
    concat (chunks (S k) i)
    = firstn (Z.to_nat (len - 1 - i * chunk)) (skipn (Z.to_nat (i * chunk)) samples).
Proof using Hn Hlen.
  destruct chunk_bounds as [H0 H1]. pose proof last_low as HL.
  induction k as [| k IH]; intros i Hi Hk.
  - cbn [chunks_from concat]. rewrite app_nil_r. unfold chunk_at.
    replace i with (nslices - 1) by lia. now rewrite Z.eqb_refl.
  - change (chunks (S (S k)) i)
      with (piece i :: chunks (S k) (i + 1)).
    cbn [concat]. rewrite IH by lia. unfold chunk_at.
    destruct (Z.eqb_spec i (nslices - 1)); [lia|].
    replace ((i + 1) * chunk - i * chunk) with chunk by ring.
    replace (Z.to_nat ((i + 1) * chunk))
      with (Z.to_nat chunk + Z.to_nat (i * chunk))%nat by nia.
    rewrite <- skipn_skipn.
    replace (Z.to_nat (len - 1 - i * chunk))
      with (Z.to_nat chunk + Z.to_nat (len - 1 - (i + 1) * chunk))%nat by nia.
    now rewrite firstn_sum.
Qed.

Lemma chunks_from_length (k : nat) (i : Z) : length (chunks k i) = k.
Proof. revert i. induction k; intros i; cbn; auto. Qed.

Lemma chunks_from_sizes (k : nat) :
  forall i : Z,
    0 <= i -> i + Z.of_nat (S k) = nslices ->
    Forall (fun c => Z.of_nat (length c) = chunk)
      (removelast (chunks (S k) i)).
Proof using Hn Hlen.
  destruct chunk_bounds as [H0 H1].
  induction k as [| k IH]; intros i Hi Hk.
  - cbn. constructor.
  - change (chunks (S (S k)) i)
      with (piece i :: chunks (S k) (i + 1)).
    assert (Hne : chunks (S k) (i + 1) <> []) by (cbn; discriminate).
    change (piece i :: chunks (S k) (i + 1))
      with ([piece i] ++ chunks (S k) (i + 1)).
    rewrite removelast_app by exact Hne. cbn [app].
    constructor; [|apply IH; lia].
    unfold chunk_at. destruct (Z.eqb_spec i (nslices - 1)); [lia|].
    rewrite length_firstn, length_skipn. nia.
Qed.

End ChunkFacts.

(** X4: with at least one sample and [nslices >= 1], the call does not
    panic and checks exactly [nslices] chunks, consecutive from the first
    sample on; all but the last chunk have [len(samples) / nslices]
    samples, and together the chunks are the samples without the last
    one: the last sample is in no chunk. *)
Theorem slices_check_all_but_last (A T : Type) (check : T -> list A -> T)
  (t : T) (samples : list A) (nslices : Z) :
  1 <= nslices -> samples <> [] ->
  let chunks := chunks_from samples nslices (Z.to_nat nslices) 0 in
  checkSampleSliceDistributions check t samples nslices
  = Some (fold_left check chunks t) /\
  length chunks = Z.to_nat nslices /\
  concat chunks = removelast samples /\
  Forall (fun c => Z.of_nat (length c) = Z.of_nat (length samples) / nslices)
    (removelast chunks).
Proof.
  intros Hn Hne chunks.
  assert (Hlen : 1 <= Z.of_nat (length samples)).
  { destruct samples; [contradiction | cbn [length]; lia]. }
  destruct (Z.to_nat nslices) as [| k] eqn:Ek; [lia|].
  unfold checkSampleSliceDistributions.
  destruct (Z.eqb_spec nslices 0); [lia|]. rewrite Ek.
  split; [|split; [|split]].
  - apply slices_loop_chunks; lia.
  - apply chunks_from_length.
  - unfold chunks.
    rewrite (concat_chunks_from A samples nslices Hn Hlen k 0) by lia.
    rewrite Z.mul_0_l, Z.sub_0_r. cbn [Z.to_nat skipn].
    rewrite removelast_firstn_len. f_equal. lia.
  - rewrite <- (Z.quot_div_nonneg _ nslices) by lia.
    apply chunks_from_sizes; lia.
Qed.

Lemma slices_check_all_but_last_witness :
  1 <= 3 /\ [1; 2; 3; 4; 5; 6; 7] <> [] /\
  checkSampleSliceDistributions record_chunk [] [1; 2; 3; 4; 5; 6; 7] 3
  = Some [[1; 2]; [3; 4]; [5; 6]].
Proof.
  split; [lia|]. split; [discriminate|].
  apply (slices_check_all_but_last Z (list (list Z)) record_chunk []
           [1; 2; 3; 4; 5; 6; 7] 3); [lia | discriminate].
Defined.

Lemma slices_loop_empty (A T : Type) (check : T -> list A -> T)
  (nslices : Z) (k : nat) :
  forall (i : Z) (t : T),
    0 <= i -> i + Z.of_nat (S k) = nslices ->
    slices_loop check (S k) i 0 nslices [] t = None.
Proof.
  induction k as [| k IH]; intros i t Hi Hk.
  - cbn [slices_loop]. replace (i =? nslices - 1) with true
      by (symmetry; apply Z.eqb_eq; lia).
    unfold go_slice. cbn [length Z.of_nat].
    replace (i * 0 <=? 0 - 1) with false by (symmetry; apply Z.leb_gt; lia).
    now rewrite andb_false_r.
  - change (slices_loop check (S (S k)) i 0 nslices [] t)
      with (let low := i * 0 in
            let high :=
              if i =? nslices - 1 then Z.of_nat (length (@nil A)) - 1
              else (i + 1) * 0 in
            match go_slice (@nil A) low high with
            | Some c => slices_loop check (S k) (i + 1) 0 nslices [] (check t c)
            | None => None
            end).
    cbv zeta. destruct (go_slice [] (i * 0) _); [apply IH; lia | reflexivity].
Qed.

(** X5: the call panics when [nslices] is 0 (integer division by zero)
    and when there is no sample and [nslices >= 1] (the last chunk is
    [samples[0:-1]]); with a negative [nslices] it checks nothing. *)
Theorem slices_check_edge_cases (A T : Type) (check : T -> list A -> T)
  (t : T) :
  (forall samples, checkSampleSliceDistributions check t samples 0 = None) /\
  (forall nslices,
      1 <= nslices ->
      checkSampleSliceDistributions check t [] nslices = None) /\
  (forall samples nslices,
      nslices < 0 ->
      checkSampleSliceDistributions check t samples nslices = Some t).
Proof.
  split; [reflexivity|]. split.
  - intros nslices Hn. unfold checkSampleSliceDistributions.
    destruct (Z.eqb_spec nslices 0); [lia|].
    destruct (Z.to_nat nslices) as [| k] eqn:Ek; [lia|].
    cbn [length Z.of_nat]. rewrite Z.quot_0_l by lia.
    apply slices_loop_empty; lia.
  - intros samples nslices Hn. unfold checkSampleSliceDistributions.
    destruct (Z.eqb_spec nslices 0); [lia|].
    now replace (Z.to_nat nslices) with 0%nat by lia.
Qed.

(** ** [encodePerm] *)

Lemma int_wrap_small (z : Z) : - 2 ^ 63 <= z < 2 ^ 63 -> int_wrap z = z.
Proof.
  intros H. unfold int_wrap.
  rewrite Z.mod_small; [ring|].
  change (2 ^ 64) with (2 ^ 63 + 2 ^ 63). lia.
Qed.

Lemma lehmer_loop_done (k : nat) :
  forall (i : nat) (s : list Z),
    (length s <= i)%nat -> lehmer_loop k i s = s.
Proof.
  induction k as [| k IH]; intros i s H; cbn [lehmer_loop]; [reflexivity|].
  unfold lehmer_pass.
  rewrite firstn_all2, skipn_all2 by lia. cbn [map]. rewrite app_nil_r.
  apply IH. lia.
Qed.

(** The index-driven passes are the recursion on the remaining slice. *)
Lemma lehmer_loop_rec (k : nat) :
  forall p s : list Z,
    lehmer_loop k (length p) (p ++ s) = p ++ lehmer_rec k s.
Proof.
  induction k as [| k IH]; intros p s; cbn [lehmer_loop lehmer_rec].
  - reflexivity.
  - destruct s as [| x r].
    + rewrite app_nil_r. unfold lehmer_pass.
      rewrite firstn_all2, skipn_all2 by lia. cbn [map]. rewrite app_nil_r.
      apply lehmer_loop_done. lia.
    + unfold lehmer_pass. rewrite nth_middle.
      replace (firstn (S (length p)) (p ++ x :: r)) with (p ++ [x]).
      2:{ rewrite firstn_app, firstn_all2 by lia.
          replace (S (length p) - length p)%nat with 1%nat by lia.
          reflexivity. }
      replace (skipn (S (length p)) (p ++ x :: r)) with r.
      2:{ rewrite skipn_app, skipn_all2 by lia.
          replace (S (length p) - length p)%nat with 1%nat by lia.
          reflexivity. }
      fold (dec_above x r).
      specialize (IH (p ++ [x]) (dec_above x r)).
      rewrite length_app in IH. cbn [length] in IH.
      replace (length p + 1)%nat with (S (length p)) in IH by lia.
      rewrite IH, <- app_assoc. reflexivity.
Qed.

Lemma lehmer_rec_length (n : nat) :
  forall s, length (lehmer_rec n s) = length s.
Proof.
  induction n as [| n IH]; intros [| x r]; cbn [lehmer_rec length]; auto.
  rewrite IH. unfold dec_above. now rewrite length_map.
Qed.

Lemma dec_above_plain (x : Z) (r : list Z) :
  Forall (fun y => 0 <= y < 2 ^ 63) r -> dec_above x r = map (dec1 x) r.
Proof.
  intros H. unfold dec_above. apply map_ext_in. intros y Hy.
  rewrite Forall_forall in H. specialize (H y Hy). unfold dec1.
  destruct (x <? y); [apply int_wrap_small; lia | reflexivity].
Qed.

Lemma dec1_inj (x y y' : Z) :
  y <> x -> y' <> x -> dec1 x y = dec1 x y' -> y = y'.
Proof.
  unfold dec1. intros H1 H2.
  destruct (Z.ltb_spec x y), (Z.ltb_spec x y'); lia.
Qed.

Lemma map_dec1_inj (x : Z) (r1 : list Z) :
  forall r2, ~ In x r1 -> ~ In x r2 ->
             map (dec1 x) r1 = map (dec1 x) r2 -> r1 = r2.
Proof.
  induction r1 as [| y r1 IH]; intros [| y' r2] H1 H2 E;
    try discriminate E; [reflexivity|].
  cbn [map] in E. injection E as E1 E2.
  f_equal.
  - apply (dec1_inj x); [intros -> | intros -> |]; cbn in *; tauto.
  - apply IH; cbn in *; tauto.
Qed.

Lemma NoDup_map_dec1 (x : Z) (r : list Z) :
  ~ In x r -> NoDup r -> NoDup (map (dec1 x) r).
Proof.
  induction r as [| y r IH]; intros Hx Hnd; cbn [map]; [constructor|].
  apply NoDup_cons_iff in Hnd. destruct Hnd as [Hy Hnd].
  constructor.
  - intros Hin. apply in_map_iff in Hin. destruct Hin as (y' & E & Hy').
    apply dec1_inj in E.
    + now subst y'.
    + intros ->. apply Hx. now right.
    + intros ->. apply Hx. now left.
  - apply IH; [|exact Hnd]. intros H. apply Hx. now right.
Qed.

Lemma Zpow63_gt (n : nat) : (n <= 20)%nat -> Z.of_nat n < 2 ^ 63.
Proof. intros H. assert (Z.of_nat n <= 20) by lia. lia. Qed.

Lemma is_perm_tail (x : Z) (r : list Z) :
  (length (x :: r) <= 20)%nat -> is_perm (x :: r) ->
  0 <= x <= Z.of_nat (length r) /\ ~ In x r /\
  dec_above x r = map (dec1 x) r /\ is_perm (dec_above x r).
Proof.
  intros Hlen [Hnd Hall].
  apply NoDup_cons_iff in Hnd. destruct Hnd as [Hx Hnd].
  apply Forall_cons_iff in Hall. destruct Hall as [Hx0 Hall].
  cbn [length] in *. rewrite Forall_forall in Hall.
  assert (Hplain : dec_above x r = map (dec1 x) r).
  { apply dec_above_plain. apply Forall_forall. intros y Hy.
    specialize (Hall y Hy). pose proof (Zpow63_gt _ Hlen). lia. }
  split; [lia|]. split; [exact Hx|]. split; [exact Hplain|].
  rewrite Hplain. split.
  - now apply NoDup_map_dec1.
  - apply Forall_forall. intros z Hz. rewrite length_map.
    apply in_map_iff in Hz. destruct Hz as (y & <- & Hy).
    specialize (Hall y Hy).
    assert (y <> x) by (intros ->; contradiction).
    unfold dec1. destruct (Z.ltb_spec x y); lia.
Qed.

Lemma lehmer_digits (n : nat) :
  forall s, length s = n -> (n <= 20)%nat -> is_perm s ->
            digits_ok (lehmer_rec n s).
Proof.
  induction n as [| n IH]; intros [| x r] Hl Hn Hp;
    try discriminate Hl; cbn [lehmer_rec digits_ok]; [exact I|].
  injection Hl as Hl.
  destruct (is_perm_tail x r) as (Hx & _ & _ & Hp'); [cbn; lia | exact Hp |].
  split.
  - rewrite lehmer_rec_length. unfold dec_above. rewrite length_map. exact Hx.
  - apply IH; [unfold dec_above; now rewrite length_map | lia | exact Hp'].
Qed.

Lemma lehmer_rec_inj (n : nat) :
  forall s1 s2,
    length s1 = n -> length s2 = n -> (n <= 20)%nat ->
    is_perm s1 -> is_perm s2 ->
    lehmer_rec n s1 = lehmer_rec n s2 -> s1 = s2.
Proof.
  induction n as [| n IH]; intros [| x r1] [| x' r2] H1 H2 Hn P1 P2 E;
    try discriminate; [reflexivity|].
  cbn [lehmer_rec] in E. injection E as -> E.
  injection H1 as H1. injection H2 as H2.
  destruct (is_perm_tail x' r1) as (_ & N1 & D1 & Q1); [cbn; lia | exact P1 |].
  destruct (is_perm_tail x' r2) as (_ & N2 & D2 & Q2); [cbn; lia | exact P2 |].
  f_equal. apply (map_dec1_inj x'); [exact N1 | exact N2 |].
  rewrite <- D1, <- D2.
  apply IH; try assumption; try lia;
    unfold dec_above; now rewrite length_map.
Qed.

Lemma Zfact_succ (n : nat) : Zfact (S n) = (Z.of_nat n + 1) * Zfact n.
Proof. reflexivity. Qed.

Lemma Zfact_pos (n : nat) : 0 < Zfact n.
Proof.
  induction n as [| n IH]; [reflexivity|]. rewrite Zfact_succ. nia.
Qed.

Lemma Zfact_mono (n m : nat) : (n <= m)%nat -> Zfact n <= Zfact m.
Proof.
  induction 1 as [| m _ IH]; [lia|].
  rewrite Zfact_succ. pose proof (Zfact_pos m). nia.
Qed.

Lemma Zfact_le_20 (n : nat) : (n <= 20)%nat -> Zfact n < 2 ^ 63.
Proof.
  intros H. pose proof (Zfact_mono n 20 H) as L.
  assert (E : Zfact 20 = 2432902008176640000) by (vm_compute; reflexivity).
  lia.
Qed.

Lemma radix_bound (l : list Z) :
  digits_ok l -> 0 <= radix_value l < Zfact (length l).
Proof.
  induction l as [| x r IH]; cbn [digits_ok radix_value length].
  - intros _. cbn [Zfact]. lia.
  - intros [Hx Hr]. specialize (IH Hr). rewrite Zfact_succ.
    pose proof (Zfact_pos (length r)). nia.
Qed.

Lemma radix_inj (l1 : list Z) :
  forall l2, length l1 = length l2 -> digits_ok l1 -> digits_ok l2 ->
             radix_value l1 = radix_value l2 -> l1 = l2.
Proof.
  induction l1 as [| x r1 IH]; intros [| x' r2] Hl D1 D2 E;
    try discriminate Hl; [reflexivity|].
  injection Hl as Hl. cbn [digits_ok radix_value] in *.
  destruct D1 as [Hx D1]. destruct D2 as [Hx' D2].
  pose proof (radix_bound r1 D1) as B1. pose proof (radix_bound r2 D2) as B2.
  rewrite <- Hl in *.
  assert (x = x') by nia. subst x'.
  f_equal. apply IH; try assumption. lia.
Qed.

Lemma digits_ok_skipn (i : nat) :
  forall l, digits_ok l -> digits_ok (skipn i l).
Proof.
  induction i as [| i IH]; intros [| x r] H; cbn [skipn]; try exact H.
  apply IH. exact (proj2 H).
Qed.

Lemma skipn_nth_cons (i : nat) :
  forall l : list Z, (i < length l)%nat ->
                     skipn i l = nth i l 0 :: skipn (S i) l.
Proof.
  induction i as [| i IH]; intros [| x r] H; cbn [length] in H; try lia.
  - reflexivity.
  - cbn [skipn nth]. rewrite IH by lia. reflexivity.
Qed.

Lemma radix_loop_value (s : list Z) :
  (length s <= 20)%nat -> digits_ok s ->
  forall i, (i <= length s)%nat ->
            radix_loop i s (radix_value (skipn i s)) (Zfact (length s - i))
            = radix_value s.
Proof.
  intros Hlen Hd. induction i as [| i IH]; intros Hi.
  - reflexivity.
  - cbn [radix_loop].
    pose proof (skipn_nth_cons i s ltac:(lia)) as Hs.
    pose proof (digits_ok_skipn i s Hd) as Hdi.
    pose proof (radix_bound _ Hdi) as Hb.
    rewrite Hs in Hdi, Hb. cbn [digits_ok radix_value length] in Hdi, Hb.
    rewrite length_skipn in Hdi, Hb.
    destruct Hdi as [Hx Hdi].
    pose proof (radix_bound _ Hdi) as Hb'. rewrite length_skipn in Hb'.
    pose proof (Zfact_pos (length s - S i)) as Hf.
    pose proof (Zfact_le_20 (S (length s - S i)) ltac:(lia)) as H20.
    rewrite Zfact_succ in H20, Hb.
    set (d := nth i s 0) in *. set (f := Zfact (length s - S i)) in *.
    set (v := radix_value (skipn (S i) s)) in *.
    rewrite (int_wrap_small (d * f)) by nia.
    rewrite (int_wrap_small (v + d * f)) by nia.
    replace (Z.of_nat (length s) - Z.of_nat i)
      with (Z.of_nat (length s - S i) + 1) by lia.
    rewrite (int_wrap_small (f * _)) by nia.
    replace (v + d * f) with (radix_value (skipn i s))
      by (rewrite Hs; cbn [radix_value]; rewrite length_skipn; fold d f v; ring).
    replace (f * (Z.of_nat (length s - S i) + 1))
      with (Zfact (length s - i)).
    2:{ replace (length s - i)%nat with (S (length s - S i)) by lia.
        rewrite Zfact_succ. fold f. ring. }
    apply IH. lia.
Qed.

Lemma encodePerm_value (s : list Z) :
  (length s <= 20)%nat -> is_perm s ->
  encodePerm s
  = (radix_value (lehmer_rec (length s) s), lehmer_rec (length s) s).
Proof.
  intros Hlen Hp. unfold encodePerm.
  pose proof (lehmer_loop_rec (length s) [] s) as E. cbn [length app] in E.
  rewrite E. f_equal.
  pose proof (lehmer_digits (length s) s eq_refl Hlen Hp) as Hd.
  pose proof (radix_loop_value (lehmer_rec (length s) s)) as R.
  rewrite lehmer_rec_length in R.
  specialize (R Hlen Hd (length s) (le_n _)).
  rewrite skipn_all2 in R by (rewrite lehmer_rec_length; lia).
  rewrite Nat.sub_diag in R. rewrite lehmer_rec_length. exact R.
Qed.

(** X6: for a permutation of [0 .. n-1] with [n <= 20] (so that [n!] fits
    an [int]), the code returned by [encodePerm] lies in [[0, n!)], and the
    slice is left holding the digits of that code in the factorial number
    system: the entry at distance [k] from the end is at most [k]. *)
Theorem encodePerm_range (s : list Z) :
  is_perm s -> (length s <= 20)%nat ->
  0 <= fst (encodePerm s) < Zfact (length s) /\
  length (snd (encodePerm s)) = length s /\
  digits_ok (snd (encodePerm s)) /\
  fst (encodePerm s) = radix_value (snd (encodePerm s)).
Proof.
  intros Hp Hlen. rewrite (encodePerm_value s Hlen Hp). cbn [fst snd].
  pose proof (lehmer_digits (length s) s eq_refl Hlen Hp) as Hd.
  pose proof (radix_bound _ Hd) as Hb. rewrite lehmer_rec_length in Hb.
  repeat split; try lia; [apply lehmer_rec_length | exact Hd].
Qed.

Lemma is_perm_example : is_perm [3; 1; 0; 2].
Proof.
  split.
  - repeat constructor; cbn; intuition lia.
  - repeat constructor; cbn; lia.
Qed.

Lemma encodePerm_range_witness :
  is_perm [3; 1; 0; 2] /\ (length [3; 1; 0; 2] <= 20)%nat /\
  0 <= fst (encodePerm [3; 1; 0; 2]) < Zfact (length [3; 1; 0; 2]).
Proof.
  split; [exact is_perm_example|]. split; [cbn; lia|].
  apply (encodePerm_range [3; 1; 0; 2]); [exact is_perm_example | cbn; lia].
Defined.

(** X7: [encodePerm] is injective on permutations: two permutations of
    the same length [n <= 20] with the same code are equal. *)
Theorem encodePerm_injective (s1 s2 : list Z) :
  is_perm s1 -> is_perm s2 -> length s1 = length s2 ->
  (length s1 <= 20)%nat ->
  fst (encodePerm s1) = fst (encodePerm s2) -> s1 = s2.
Proof.
  intros P1 P2 Hl Hlen E.
  rewrite (encodePerm_value s1 Hlen P1) in E.
  rewrite (encodePerm_value s2) in E by (try lia; assumption).
  cbn [fst] in E.
  apply (lehmer_rec_inj (length s1)); try assumption; try lia.
  rewrite Hl at 2.
  apply radix_inj.
  - now rewrite !lehmer_rec_length.
  - now apply lehmer_digits.
  - apply lehmer_digits; try assumption; [reflexivity | lia].
  - exact E.
Qed.

Lemma encodePerm_injective_witness :
  is_perm [3; 1; 0; 2] /\ is_perm [3; 1; 0; 2] /\
  length [3; 1; 0; 2] = length [3; 1; 0; 2] /\
  (length [3; 1; 0; 2] <= 20)%nat /\
  fst (encodePerm [3; 1; 0; 2]) = fst (encodePerm [3; 1; 0; 2]) /\
  [3; 1; 0; 2] = [3; 1; 0; 2].
Proof.
  split; [exact is_perm_example|]. split; [exact is_perm_example|].
  split; [reflexivity|]. split; [cbn; lia|]. split; [reflexivity|].
  apply (encodePerm_injective [3; 1; 0; 2] [3; 1; 0; 2]);
    try exact is_perm_example; try reflexivity. cbn; lia.
Defined.

(** ** Not-a-number in the distribution checks *)

Lemma Prim2SF_nan : Prim2SF nan = S754_nan.
Proof. reflexivity. Qed.

Lemma sub_nan_l (b : float) : (nan - b)%float = nan.
Proof.
  apply Prim2SF_inj. rewrite FloatAxioms.sub_spec, Prim2SF_nan.
  now destruct (Prim2SF b).
Qed.

Lemma sub_nan_r (a : float) : (a - nan)%float = nan.
Proof.
  apply Prim2SF_inj. rewrite FloatAxioms.sub_spec, Prim2SF_nan.
  now destruct (Prim2SF a).
Qed.

Lemma add_nan_l (b : float) : (nan + b)%float = nan.
Proof.
  apply Prim2SF_inj. rewrite FloatAxioms.add_spec, Prim2SF_nan.
  now destruct (Prim2SF b).
Qed.

Lemma add_nan_r (a : float) : (a + nan)%float = nan.
Proof.
  apply Prim2SF_inj. rewrite FloatAxioms.add_spec, Prim2SF_nan.
  now destruct (Prim2SF a).
Qed.

Lemma div_nan_l (b : float) : (nan / b)%float = nan.
Proof.
  apply Prim2SF_inj. rewrite FloatAxioms.div_spec, Prim2SF_nan.
  now destruct (Prim2SF b).
Qed.

Lemma ltb_nan_l (c : float) : (nan <? c)%float = false.
Proof. rewrite FloatAxioms.ltb_spec, Prim2SF_nan. reflexivity. Qed.

Lemma abs_nan : PrimFloat.abs nan = nan.
Proof. reflexivity. Qed.

(** X8: [nearEqual] is false as soon as one of the two compared values is
    not a number, whatever the other value and the two tolerances. *)
Theorem nearEqual_nan (x closeEnough maxError : float) :
  nearEqual64 nan x closeEnough maxError = false /\
  nearEqual64 x nan closeEnough maxError = false.
Proof.
  unfold nearEqual64.
  rewrite sub_nan_l, sub_nan_r, abs_nan, !ltb_nan_l, !div_nan_l, !ltb_nan_l.
  split; reflexivity.
Qed.

Lemma sum_nan_absorbs (samples : list float) :
  forall q : float,
    fst (fold_left (fun acc s => (fst acc + s, snd acc + s * s)%float)
           samples (nan, q)) = nan.
Proof.
  induction samples as [| s samples IH]; intros q; cbn [fold_left fst snd].
  - reflexivity.
  - rewrite add_nan_l. apply IH.
Qed.

Lemma sum_with_nan (samples : list float) :
  In nan samples ->
  forall a q : float,
    fst (fold_left (fun acc s => (fst acc + s, snd acc + s * s)%float)
           samples (a, q)) = nan.
Proof.
  induction samples as [| s samples IH]; intros Hin a q; [destruct Hin|].
  cbn [fold_left fst snd]. destruct Hin as [-> | Hin].
  - rewrite add_nan_r. apply sum_nan_absorbs.
  - now apply IH.
Qed.

Lemma mean_nan (samples : list float) :
  samples = [] \/ In nan samples -> mean (getStatsResults samples) = nan.
Proof.
  intros [-> | Hin]; [reflexivity|].
  unfold getStatsResults.
  pose proof (sum_with_nan samples Hin 0%float 0%float) as H.
  destruct (fold_left _ samples (0%float, 0%float)) as [sum squaresum].
  cbn [fst] in H. subst sum. cbn [mean]. apply div_nan_l.
Qed.

(** X9: a sample set that is empty, or that holds a not-a-number, has a
    not-a-number mean, and [checkSampleDistribution] reports the mean
    error for it whatever distribution is expected. *)
Theorem empty_or_nan_samples_fail (expected : statsResults)
  (t : list dist_error) (samples : list float) :
  samples = [] \/ In nan samples ->
  mean (getStatsResults samples) = nan /\
  checkSampleDistribution expected t samples
  = t ++ [MeanError nan (mean expected)].
Proof.
  intros H. pose proof (mean_nan samples H) as Hm.
  split; [exact Hm|].
  unfold checkSampleDistribution, checkSimilarDistribution.
  rewrite Hm.
  destruct (nearEqual_nan (mean expected) (closeEnough expected)
              (maxError expected)) as [-> _].
  reflexivity.
Qed.

Lemma empty_or_nan_samples_fail_witness :
  (@nil float = [] \/ In nan (@nil float)) /\
  mean (getStatsResults []) = nan /\
  checkSampleDistribution (mkStats 1 1 0.1 0.2) [] []
  = [] ++ [MeanError nan (mean (mkStats 1 1 0.1 0.2))].
Proof.
  split; [now left|].
  apply (empty_or_nan_samples_fail (mkStats 1 1 0.1 0.2) [] []). now left.
Defined.

(** ** What a call of [ExpFloat64] draws *)

Section DrawFacts.

Variable Rand : Type.
Variable Uint64 : Rand -> Z * Rand.
Variable Float64 : Rand -> float * Rand.
Variable Log : float -> float.
Variable Exp : float -> float.

Local Notation "'tbody'" :=
  (ExpFloat64_body (traced_Uint64 Uint64) (traced_Float64 Float64) Log Exp).
Local Notation "'tloop'" :=
  (ExpFloat64 (traced_Uint64 Uint64) (traced_Float64 Float64) Log Exp).





End DrawFacts.


(** The thresholds are positive in every layer but layer 1, and 0 times a
    width is 0 in every layer. *)
Lemma ke_positive_but_1 :
  forallb (fun i => (i =? 1)%nat || (0 <? nth i ke 0)) (seq 0 256) = true.
Proof. vm_compute. reflexivity. Qed.

Lemma zero_times_we :
  map (fun w => (float64_of_uint64 0 * w)%float) we = repeat 0%float 256.
Proof. vm_compute. reflexivity. Qed.

Lemma ke_1_zero : ke_at 1 = 0.
Proof. reflexivity. Qed.

Lemma candidate_zero (v : Z) :
  0 <= v < 2 ^ 64 -> magnitude v = 0 -> candidate v = 0%float.
Proof.
  intros Hv Hm. unfold candidate. rewrite Hm. unfold we_at.
  pose proof (layer_index_range v) as Hi.
  set (k := Z.to_nat (layer_index v)).
  assert (Hk : (k < 256)%nat) by (unfold k; lia).
  rewrite <- (map_nth (fun w => (float64_of_uint64 0 * w)%float)).
  rewrite zero_times_we.
  replace (float64_of_uint64 0 * 0)%float with 0%float by reflexivity.
  apply nth_repeat.
Qed.

(** X11: every raw word below 2048 (magnitude [j = 0]) whose low byte is
    not 1 takes the fast path and makes [ExpFloat64] return exactly 0 on
    that pass, with one raw word drawn; a word whose low byte is 1 never
    takes the fast path, because [ke[1] = 0]. *)
Theorem zero_magnitude_words
  (Rand : Type) (Uint64 : Rand -> Z * Rand) (Float64 : Rand -> float * Rand)
  (Log Exp : float -> float) (r : Rand) (fuel : nat) :
  let v := fst (Uint64 r) in
  0 <= v < 2 ^ 64 ->
  (v < 2048 -> layer_index v <> 1 ->
   ExpFloat64 Uint64 Float64 Log Exp (S fuel) r
   = Some (0%float, snd (Uint64 r))) /\
  (layer_index v = 1 ->
   (magnitude v <? ke_at (layer_index v)) = false).
Proof.
  intros v Hv. split.
  - intros Hsmall Hi.
    assert (Hm : magnitude v = 0).
    { rewrite magnitude_div. apply Z.div_small. change (2 ^ 11) with 2048. lia. }
    pose proof (layer_index_range v) as Hr.
    assert (Hke : 0 < ke_at (layer_index v)).
    { pose proof ke_positive_but_1 as H. rewrite forallb_forall in H.
      specialize (H (Z.to_nat (layer_index v))).
      assert (Hin : In (Z.to_nat (layer_index v)) (seq 0 256))
        by (apply in_seq; lia).
      apply H in Hin. apply orb_true_iff in Hin. destruct Hin as [E | E].
      - apply Nat.eqb_eq in E. lia.
      - apply Z.ltb_lt in E. exact E. }
    pose proof (candidate_zero v Hv Hm) as Hc.
    cbn [ExpFloat64]. unfold ExpFloat64_body.
    subst v. destruct (Uint64 r) as [w r1]. cbn [fst snd] in *.
    fold (candidate w). rewrite Hc, Hm.
    apply Z.ltb_lt in Hke. now rewrite Hke.
  - intros ->. rewrite ke_1_zero. apply Z.ltb_ge.
    rewrite magnitude_div. apply Z.div_pos; lia.
Qed.

Lemma zero_magnitude_words_witness :
  0 <= fst (tape_Uint64 (mkTape (fun _ => 0x302) 0)) < 2 ^ 64 /\
  ExpFloat64 tape_Uint64 tape_Float64 (fun x => x) (fun x => x) 1
    (mkTape (fun _ => 0x302) 0)
  = Some (0%float, mkTape (fun _ => 0x302) 1).
Proof.
  split; [vm_compute; split; [discriminate | reflexivity]|].
  apply (zero_magnitude_words Tape tape_Uint64 tape_Float64
           (fun x => x) (fun x => x) (mkTape (fun _ => 0x302) 0) 0).
  - vm_compute; split; [discriminate | reflexivity].
  - vm_compute. reflexivity.
  - vm_compute. discriminate.
Defined.

(** ** The layers of the regenerated tables *)

Local Open Scope R_scope.


















(** ** What the loop of [initExp] leaves alone *)


